(** * a-tisket image information cache and file-info fetcher

    Shallow embedding of
    [src/mb_enhanced_cover_art_uploads/seeding/atisket/dimensions.ts]:
    the local-storage backed cache [localStorageCache] and
    [AtisketImage.loadFileInfo].

    Conventions of the embedding.
    - A JS [number] that holds an integer (epoch milliseconds, byte counts,
      HTTP status codes) is a [Z].
    - A JS object used as a string-keyed map ([CacheStore]) is the list of
      its own properties in the order [Object.entries] enumerates them.
    - An optional property ([dimensions?], [fileInfo?]) is an [option];
      a property that is absent and one that holds [undefined] are both
      [None] (the code only ever reads them through [?.] and spread, and
      [JSON.stringify] drops the latter).
    - Effects (local storage, the logger, the network) are threaded through
      a state monad over [World]; [Date.now()] is an explicit argument. *)

From Stdlib Require Import ZArith NArith List String Ascii Bool Lia Arith.
From Stdlib Require Import Permutation Sorted.
Import ListNotations.

Local Open Scope string_scope.
Local Open Scope Z_scope.

(** ** Data model *)

(* Use a multiple of 3, most a-tisket releases have 3 images. *)
Definition MAX_CACHED_IMAGES : nat := 30.

Record Dimensions := mkDimensions { width : Z; height : Z }.

Record FileInfo := mkFileInfo { fileType : option string; size : option Z }.

Record CacheEntry := mkCacheEntry {
  dimensions : option Dimensions;
  fileInfo : option FileInfo;
  addedDatetime : Z
}.

(** [Omit<CacheEntry, 'addedDatetime'>] *)
Record PartialEntry := mkPartialEntry {
  p_dimensions : option Dimensions;
  p_fileInfo : option FileInfo
}.

(** [Record<string, CacheEntry>], in property enumeration order. *)
Definition CacheStore := list (string * CacheEntry).

(** ** JS objects as ordered property lists *)

Definition is_digit (c : ascii) : bool :=
  let n := nat_of_ascii c in (48 <=? n)%nat && (n <=? 57)%nat.

Definition digit_value (c : ascii) : Z := Z.of_nat (nat_of_ascii c) - 48.

Fixpoint all_chars (p : ascii -> bool) (s : string) : bool :=
  match s with
  | EmptyString => true
  | String c s' => p c && all_chars p s'
  end.

Fixpoint decimal_acc (acc : Z) (s : string) : Z :=
  match s with
  | EmptyString => acc
  | String c s' => decimal_acc (10 * acc + digit_value c) s'
  end.

(** Value of a string of decimal digits. *)
Definition decimal (s : string) : Z := decimal_acc 0 s.

(** A property key is an array index when it is the canonical decimal
    numeral of an integer in [0, 2^32 - 2]; such keys are enumerated first,
    in ascending numeric order, before all other string keys. *)
Definition array_index (k : string) : option Z :=
  match k with
  | EmptyString => None
  | String c rest =>
      if all_chars is_digit k
         && (negb (Ascii.eqb c "0") || String.eqb rest "")
         && (Z.of_nat (String.length k) <=? 10)
         && (decimal k <=? 4294967294)
      then Some (decimal k) else None
  end.

Definition Object_keys {V} (o : list (string * V)) : list string := map fst o.

Definition Object_entries {V} (o : list (string * V)) : list (string * V) := o.

(** [o[k]] for an own property; [None] is [undefined]. *)
Fixpoint lookup {V} (k : string) (o : list (string * V)) : option V :=
  match o with
  | [] => None
  | (k', v) :: o' => if String.eqb k' k then Some v else lookup k o'
  end.

Definition has_key {V} (k : string) (o : list (string * V)) : bool :=
  existsb (String.eqb k) (Object_keys o).

(** [delete o[k]] *)
Definition delete {V} (k : string) (o : list (string * V)) : list (string * V) :=
  filter (fun kv => negb (String.eqb (fst kv) k)) o.

(** Overwrite the value of an existing property, keeping its position. *)
Fixpoint replace {V} (k : string) (v : V) (o : list (string * V))
  : list (string * V) :=
  match o with
  | [] => []
  | (k', v') :: o' =>
      if String.eqb k' k then (k, v) :: o' else (k', v') :: replace k v o'
  end.

(** Position of a new array-index property: before the first property that
    is not an array index or has a larger index. *)
Fixpoint insert_index {V} (i : Z) (k : string) (v : V) (o : list (string * V))
  : list (string * V) :=
  match o with
  | [] => [(k, v)]
  | (k', v') :: o' =>
      match array_index k' with
      | Some j => if j <? i then (k', v') :: insert_index i k v o'
                  else (k, v) :: o
      | None => (k, v) :: o
      end
  end.

(** [{...o, [k]: v}] *)
Definition assign {V} (k : string) (v : V) (o : list (string * V))
  : list (string * V) :=
  if has_key k o then replace k v o
  else match array_index k with
       | Some i => insert_index i k v o
       | None => o ++ [(k, v)]
       end.

(** ** [Array.prototype.sort] with a comparator

    The sort is stable; for a comparator that is a consistent ordering the
    result is determined, and is the one this insertion sort computes: an
    element is placed before the first later element it does not have to
    follow. *)

Fixpoint sort_insert {A} (cmp : A -> A -> Z) (x : A) (l : list A) : list A :=
  match l with
  | [] => [x]
  | y :: l' => if 0 <? cmp x y then y :: sort_insert cmp x l' else x :: l
  end.

Definition sort {A} (cmp : A -> A -> Z) (l : list A) : list A :=
  fold_right (sort_insert cmp) [] l.

(** [slice(n)] *)
Definition slice {A} (n : nat) (l : list A) : list A := skipn n l.

(** [([, info1], [, info2]) => info2.addedDatetime - info1.addedDatetime] *)
Definition newest_first (e1 e2 : string * CacheEntry) : Z :=
  addedDatetime (snd e2) - addedDatetime (snd e1).

(** ** The world: local storage, logger, network *)

(** Text stored under the cache key, identified by what parsing it gives. *)
Inductive JSONText :=
| Malformed (raw : string)
| Serialized (store : CacheStore).

Record World := mkWorld {
  localStorage : option JSONText;
  setItems : list JSONText;
  warnings : list string;
  requests : nat
}.

Definition M (A : Type) : Type := World -> A * World.

Definition ret {A} (a : A) : M A := fun w => (a, w).

Definition bind {A B} (m : M A) (f : A -> M B) : M B :=
  fun w => let (a, w') := m w in f a w'.

Notation "x <- m ;; k" := (bind m (fun x => k))
  (at level 61, m at next level, right associativity).
Notation "m ;;; k" := (bind m (fun _ => k))
  (at level 61, right associativity).

Definition exec {A} (m : M A) (w : World) : World := snd (m w).
Definition eval {A} (m : M A) (w : World) : A := fst (m w).

(** [localStorage.getItem(CACHE_LOCALSTORAGE_KEY)] *)
Definition localStorage_getItem : M (option JSONText) :=
  fun w => (localStorage w, w).

(** [localStorage.setItem(CACHE_LOCALSTORAGE_KEY, text)] *)
Definition localStorage_setItem (text : JSONText) : M unit :=
  fun w => (tt, mkWorld (Some text) (setItems w ++ [text]) (warnings w) (requests w)).

(** [LOGGER.warn(message)] *)
Definition LOGGER_warn (message : string) : M unit :=
  fun w => (tt, mkWorld (localStorage w) (setItems w) (warnings w ++ [message]) (requests w)).

Definition JSON_stringify (store : CacheStore) : JSONText := Serialized store.

(** Modelled from the spec: [safeParseJSON] of [@lib/util/json], which is not
    part of the sources at hand. It deserializes the persisted representation
    and yields [undefined] on malformed data instead of failing. *)
Definition safeParseJSON (text : JSONText) : option CacheStore :=
  match text with
  | Malformed _ => None
  | Serialized store => Some store
  end.

(** The literal ['{}']. *)
Definition empty_object_text : JSONText := Serialized [].

(** [a ?? b] *)
Definition nullish {A} (a : option A) (b : A) : A :=
  match a with Some x => x | None => b end.

(** ** [localStorageCache] *)

Definition putStore (store : CacheStore) : M unit :=
  localStorage_setItem (JSON_stringify store).

Definition getStore : M CacheStore :=
  item <- localStorage_getItem ;;
  match safeParseJSON (nullish item empty_object_text) with
  | None =>
      LOGGER_warn "Cache was malformed, resetting" ;;;
      putStore [] ;;;
      ret []
  | Some store => ret store
  end.

Definition getInfo (imageUrl : string) : M (option CacheEntry) :=
  store <- getStore ;;
  ret (lookup imageUrl store).

(** The loop [for (const [url] of entries.slice(MAX_CACHED_IMAGES - 1))
    delete prevStore[url]]. *)
Definition delete_all (victims : list (string * CacheEntry)) (store : CacheStore)
  : CacheStore :=
  fold_left (fun st kv => delete (fst kv) st) victims store.

Definition evict (prevStore : CacheStore) : CacheStore :=
  if (MAX_CACHED_IMAGES <=? List.length (Object_keys prevStore))%nat then
    let entries := sort newest_first (Object_entries prevStore) in
    delete_all (slice (MAX_CACHED_IMAGES - 1) entries) prevStore
  else prevStore.

(** [{...cacheEntry, addedDatetime: Date.now()}] *)
Definition stamp (cacheEntry : PartialEntry) (now : Z) : CacheEntry :=
  mkCacheEntry (p_dimensions cacheEntry) (p_fileInfo cacheEntry) now.

Definition putInfo (now : Z) (imageUrl : string) (cacheEntry : PartialEntry)
  : M unit :=
  prevStore <- getStore ;;
  let prevStore := evict prevStore in
  putStore (assign imageUrl (stamp cacheEntry now) prevStore).

(** [this.getInfo(imageUrl)?.dimensions] *)
Definition getDimensions (imageUrl : string) : M (option Dimensions) :=
  info <- getInfo imageUrl ;;
  ret (match info with Some e => dimensions e | None => None end).

Definition getFileInfo (imageUrl : string) : M (option FileInfo) :=
  info <- getInfo imageUrl ;;
  ret (match info with Some e => fileInfo e | None => None end).

(** [{...prevEntry, dimensions}] *)
Definition with_dimensions (prevEntry : option CacheEntry) (d : Dimensions)
  : PartialEntry :=
  mkPartialEntry (Some d)
    (match prevEntry with Some e => fileInfo e | None => None end).

(** [{...prevEntry, fileInfo}] *)
Definition with_fileInfo (prevEntry : option CacheEntry) (f : FileInfo)
  : PartialEntry :=
  mkPartialEntry
    (match prevEntry with Some e => dimensions e | None => None end)
    (Some f).

Definition putDimensions (now : Z) (imageUrl : string) (d : Dimensions)
  : M unit :=
  prevEntry <- getInfo imageUrl ;;
  putInfo now imageUrl (with_dimensions prevEntry d).

Definition putFileInfo (now : Z) (imageUrl : string) (f : FileInfo)
  : M unit :=
  prevEntry <- getInfo imageUrl ;;
  putInfo now imageUrl (with_fileInfo prevEntry f).

(** ** The network and the retry utility *)

(** What a request is rejected with. [gmxhr] rejects with an
    [HTTPResponseError] carrying the status code of the response, or with
    another error (network failure, timeout, abort). *)
Inductive FetchError :=
| HTTPResponseError (statusCode : Z) (message : string)
| OtherError (message : string).

Definition error_message (err : FetchError) : string :=
  match err with
  | HTTPResponseError _ m => m
  | OtherError m => m
  end.

(** [err instanceof HTTPResponseError], giving access to [err.statusCode]. *)
Definition as_HTTPResponseError (err : FetchError) : option Z :=
  match err with
  | HTTPResponseError c _ => Some c
  | OtherError _ => None
  end.

Record Response := mkResponse { responseHeaders : string }.

(** Settlement of a promise. *)
Inductive Outcome (A : Type) :=
| Resolved (a : A)
| Rejected (err : FetchError).
Arguments Resolved {A} a.
Arguments Rejected {A} err.

(** The remote server as seen from one image: the outcome of the n-th
    [HEAD] request issued (counting from 0). *)
Definition Network := nat -> Outcome Response.

(** Modelled from the spec: [gmxhr] of [@lib/util/xhr], which is not part of
    the sources at hand; [gmxhr(this.imgUrl, { method: 'HEAD' })] issues one
    header-only request and settles with its outcome. *)
Definition gmxhr (net : Network) : M (Outcome Response) :=
  fun w => (net (requests w),
            mkWorld (localStorage w) (setItems w) (warnings w) (S (requests w))).

(** Modelled from the spec: [pRetry] of the [p-retry] package, which is not
    part of the sources at hand. It runs [input]; on a failure it calls
    [onFailedAttempt], and if that throws the thrown error is surfaced at
    once; otherwise the input is run again while retries are left, and once
    they are exhausted the last failure is surfaced. *)
Fixpoint pRetry_attempt {A} (input : M (Outcome A))
    (onFailedAttempt : FetchError -> M (Outcome unit)) (retriesLeft : nat)
  : M (Outcome A) :=
  r <- input ;;
  match r with
  | Resolved a => ret (Resolved a)
  | Rejected err =>
      h <- onFailedAttempt err ;;
      match h with
      | Rejected thrown => ret (Rejected thrown)
      | Resolved _ =>
          match retriesLeft with
          | O => ret (Rejected err)
          | S n => pRetry_attempt input onFailedAttempt n
          end
      end
  end.

Definition pRetry {A} (input : M (Outcome A)) (retries : nat)
    (onFailedAttempt : FetchError -> M (Outcome unit)) : M (Outcome A) :=
  pRetry_attempt input onFailedAttempt retries.

(** ** Regular expressions of the form used on the response headers *)

Definition is_upper (c : ascii) : bool :=
  let n := nat_of_ascii c in (65 <=? n)%nat && (n <=? 90)%nat.

Definition is_lower (c : ascii) : bool :=
  let n := nat_of_ascii c in (97 <=? n)%nat && (n <=? 122)%nat.

(** [\w] *)
Definition is_word (c : ascii) : bool :=
  is_upper c || is_lower c || is_digit c || Ascii.eqb c "_".

(** Upper-casing of one character; it is also the canonicalization the [i]
    flag compares characters under. *)
Definition to_upper (c : ascii) : ascii :=
  if is_lower c then ascii_of_nat (nat_of_ascii c - 32) else c.

Fixpoint toUpperCase (s : string) : string :=
  match s with
  | EmptyString => EmptyString
  | String c s' => String (to_upper c) (toUpperCase s')
  end.

Inductive Atom :=
| Chr (c : ascii)                  (* a pattern character *)
| ClassPlus (cls : ascii -> bool)  (* [\w+], greedy *)
| GroupPlus (cls : ascii -> bool). (* [(\d+)], [(\w+)]: greedy, capturing *)

Definition Regex := list Atom.

Fixpoint literal (s : string) : Regex :=
  match s with
  | EmptyString => []
  | String c s' => Chr c :: literal s'
  end.

(** One or more characters of [cls], as many as possible, backing off while
    the continuation [k] fails on what is left. *)
Fixpoint plus_greedy (cls : ascii -> bool) (k : string -> option (list string))
    (s : string) : option (string * list string) :=
  match s with
  | EmptyString => None
  | String c s' =>
      if cls c then
        match plus_greedy cls k s' with
        | Some (run, caps) => Some (String c run, caps)
        | None =>
            match k s' with
            | Some caps => Some (String c EmptyString, caps)
            | None => None
            end
        end
      else None
  end.

(** Match at the start of [s], under the [i] flag; the result lists the
    captured groups. *)
Fixpoint match_here (re : Regex) (s : string) : option (list string) :=
  match re with
  | [] => Some []
  | Chr p :: re' =>
      match s with
      | String c s' =>
          if Ascii.eqb (to_upper p) (to_upper c) then match_here re' s' else None
      | EmptyString => None
      end
  | ClassPlus cls :: re' =>
      match plus_greedy cls (match_here re') s with
      | Some (_, caps) => Some caps
      | None => None
      end
  | GroupPlus cls :: re' =>
      match plus_greedy cls (match_here re') s with
      | Some (run, caps) => Some (run :: caps)
      | None => None
      end
  end.

(** [s.match(re)]: the leftmost match. *)
Fixpoint String_match (re : Regex) (s : string) : option (list string) :=
  match match_here re s with
  | Some caps => Some caps
  | None =>
      match s with
      | EmptyString => None
      | String _ s' => String_match re s'
      end
  end.

(** [m?.[1]] *)
Definition group1 (m : option (list string)) : option string :=
  match m with
  | Some (g :: _) => Some g
  | _ => None
  end.

(** [/content-length: (\d+)/i] *)
Definition re_content_length : Regex :=
  (literal "content-length: " ++ [GroupPlus is_digit])%list.

(** [/content-type: \w+\/(\w+)/i] *)
Definition re_content_type : Regex :=
  (literal "content-type: " ++ [ClassPlus is_word; Chr "/"; GroupPlus is_word])%list.

Fixpoint leading (p : ascii -> bool) (s : string) : string :=
  match s with
  | EmptyString => EmptyString
  | String c s' => if p c then String c (leading p s') else EmptyString
  end.

(** [parseInt] of a decimal numeral: the value of its leading digits. A JS
    number holds that value exactly as long as it does not exceed 2^53;
    the rounding of longer numerals is not part of the embedding, and the
    statements on [size] are made for numerals within that range. *)
Definition parseInt (s : string) : Z := decimal (leading is_digit s).

(** ** [AtisketImage.loadFileInfo] *)

Definition retrying_message (err : FetchError) : string :=
  "Failed to retrieve image file info: " ++ error_message err ++ ". Retrying…".

Definition onFailedAttempt (err : FetchError) : M (Outcome unit) :=
  (* Don't retry on 4xx status codes except for 429. Anything below 400
     doesn't throw a HTTPResponseError. *)
  match as_HTTPResponseError err with
  | Some statusCode =>
      if (statusCode <? 500) && negb (statusCode =? 429)
      then ret (Rejected err)
      else LOGGER_warn (retrying_message err) ;;; ret (Resolved tt)
  | None => LOGGER_warn (retrying_message err) ;;; ret (Resolved tt)
  end.

(** The object built from the headers of the response. *)
Definition headers_fileInfo (resp : Response) : FileInfo :=
  let fileSize := group1 (String_match re_content_length (responseHeaders resp)) in
  let fileType := group1 (String_match re_content_type (responseHeaders resp)) in
  mkFileInfo
    (option_map toUpperCase fileType)
    (match fileSize with
     | Some (String c s) => Some (parseInt (String c s))
     | _ => None
     end).

Definition loadFileInfo (net : Network) : M (Outcome FileInfo) :=
  resp <- pRetry (gmxhr net) 5 onFailedAttempt ;;
  match resp with
  | Resolved resp => ret (Resolved (headers_fileInfo resp))
  | Rejected err => ret (Rejected err)
  end.

(** ** Sequences of cache operations *)

Inductive Op :=
| GetStore
| GetInfo (imageUrl : string)
| GetDimensions (imageUrl : string)
| GetFileInfo (imageUrl : string)
| PutInfo (now : Z) (imageUrl : string) (cacheEntry : PartialEntry)
| PutDimensions (now : Z) (imageUrl : string) (d : Dimensions)
| PutFileInfo (now : Z) (imageUrl : string) (f : FileInfo).

Definition step (op : Op) : M unit :=
  match op with
  | GetStore => getStore ;;; ret tt
  | GetInfo k => getInfo k ;;; ret tt
  | GetDimensions k => getDimensions k ;;; ret tt
  | GetFileInfo k => getFileInfo k ;;; ret tt
  | PutInfo now k e => putInfo now k e
  | PutDimensions now k d => putDimensions now k d
  | PutFileInfo now k f => putFileInfo now k f
  end.

Definition run (ops : list Op) (w : World) : World :=
  fold_left (fun w op => exec (step op) w) ops w.

(** The time at which [op] writes the entry of [k], if it does. *)
Definition write_time (k : string) (op : Op) : option Z :=
  match op with
  | PutInfo now k' _ | PutDimensions now k' _ | PutFileInfo now k' _ =>
      if String.eqb k' k then Some now else None
  | _ => None
  end.

Fixpoint last_write (k : string) (ops : list Op) : option Z :=
  match ops with
  | [] => None
  | op :: ops' =>
      match last_write k ops' with
      | Some t => Some t
      | None => write_time k op
      end
  end.

(** ** Observations and well-formedness *)

(** The store a reader finds in the world. *)
Definition stored (w : World) : CacheStore := eval getStore w.

Definition entry_of (k : string) (w : World) : option CacheEntry :=
  eval (getInfo k) w.

Fixpoint distinct (ks : list string) : bool :=
  match ks with
  | [] => true
  | k :: ks' => negb (existsb (String.eqb k) ks') && distinct ks'
  end.

(** An object has each key once. *)
Definition well_formed (store : CacheStore) : bool :=
  distinct (Object_keys store).

Definition count_key {V} (k : string) (store : list (string * V)) : nat :=
  List.length (filter (String.eqb k) (Object_keys store)).

(** The entries [delete]d by [putInfo] on [store]. *)
Definition victims (store : CacheStore) : list (string * CacheEntry) :=
  if (MAX_CACHED_IMAGES <=? List.length (Object_keys store))%nat
  then slice (MAX_CACHED_IMAGES - 1) (sort newest_first (Object_entries store))
  else [].

(** [a] was written no earlier than [b]. *)
Definition not_older (a b : string * CacheEntry) : Prop :=
  addedDatetime (snd b) <= addedDatetime (snd a).

(** The key of [kv] is not among the keys of [vs]. *)
Definition spared {V} (vs : list (string * V)) (kv : string * V) : bool :=
  negb (existsb (String.eqb (fst kv)) (Object_keys vs)).

(** Classification of failures used by the statements on retrying: a client
    error is an HTTP response error with a 4xx status other than 429; a
    transient failure is a 5xx or 429 response error, or any failure that is
    not an HTTP response error. *)
Definition client_error (err : FetchError) : bool :=
  match err with
  | HTTPResponseError c _ => (400 <=? c) && (c <? 500) && negb (c =? 429)
  | OtherError _ => false
  end.

Definition transient (err : FetchError) : bool :=
  match err with
  | HTTPResponseError c _ => (500 <=? c) || (c =? 429)
  | OtherError _ => true
  end.

(** The [n] requests from request number [from] on all fail, each with a
    transient failure. *)
Fixpoint all_transient (net : Network) (from n : nat) : bool :=
  match n with
  | O => true
  | S n' =>
      match net from with
      | Rejected err => transient err && all_transient net (S from) n'
      | Resolved _ => false
      end
  end.

(** The failures among requests [from .. from + n - 1]. *)
Fixpoint failures (net : Network) (from n : nat) : list FetchError :=
  match n with
  | O => []
  | S n' =>
      match net from with
      | Rejected err => err :: failures net (S from) n'
      | Resolved _ => failures net (S from) n'
      end
  end.

(** The world after [n] further requests that logged [msgs]. *)
Definition after_attempts (n : nat) (msgs : list string) (w : World) : World :=
  mkWorld (localStorage w) (setItems w) (warnings w ++ msgs) (requests w + n).

Definition crlf : string :=
  String (ascii_of_nat 13) (String (ascii_of_nat 10) EmptyString).


(** Case-insensitive equality of strings. *)
Fixpoint eq_ci (a b : string) : bool :=
  match a, b with
  | EmptyString, EmptyString => true
  | String x a', String y b' => Ascii.eqb (to_upper x) (to_upper y) && eq_ci a' b'
  | _, _ => false
  end.




(** ** Sample data *)

Definition sample_key (i : nat) : string :=
  "https://example.org/cover-" ++ String (ascii_of_nat (65 + i)) EmptyString.

Definition sample_entry (i : nat) : CacheEntry :=
  mkCacheEntry (Some (mkDimensions 600 600)) None (1000 + Z.of_nat i).

(** A full store: thirty entries written at times 1000 .. 1029. *)
Definition sample_store : CacheStore :=
  map (fun i => (sample_key i, sample_entry i)) (seq 0 30).

Definition world_of (store : CacheStore) : World :=
  mkWorld (Some (JSON_stringify store)) [] [] 0.

Definition png : FileInfo := mkFileInfo (Some "PNG") (Some 12345).

(** Six server errors in a row. *)
Definition always_500 : Network :=
  fun _ => Rejected (HTTPResponseError 500 "HTTP error 500: Internal Server Error").

Definition png_headers : string :=
  "content-length: 12345" ++ crlf ++ "content-type: image/png" ++ crlf.

(** Rate limited three times, then served. *)
Definition rate_limited_thrice : Network :=
  fun n => if (n <? 3)%nat
           then Rejected (HTTPResponseError 429 "HTTP error 429: Too Many Requests")
           else Resolved (mkResponse png_headers).

Definition not_found_then_ok : Network :=
  fun n => match n with
           | O => Rejected (HTTPResponseError 404 "HTTP error 404: Not Found")
           | _ => Resolved (mkResponse "content-length: 1")
           end.

(** ** Further notions used by the statements *)


(** The names every object inherits from [Object.prototype]; [o[k]] for such
    a name finds the inherited member when [o] has no own property [k]. *)
Definition Object_prototype_names : list string :=
  ["constructor"; "__proto__"; "hasOwnProperty"; "isPrototypeOf";
   "propertyIsEnumerable"; "toLocaleString"; "toString"; "valueOf";
   "__defineGetter__"; "__defineSetter__"; "__lookupGetter__";
   "__lookupSetter__"]%string.

Definition inherited (k : string) : bool :=
  existsb (String.eqb k) Object_prototype_names.

(** The operations that only read. *)
Definition is_read (op : Op) : bool :=
  match op with
  | GetStore | GetInfo _ | GetDimensions _ | GetFileInfo _ => true
  | _ => false
  end.

(** The entries are enumerated from the oldest to the newest, with strictly
    increasing [addedDatetime]. *)
Fixpoint ascending (store : CacheStore) : bool :=
  match store with
  | [] => true
  | x :: store' =>
      forallb (fun y => addedDatetime (snd x) <? addedDatetime (snd y)) store'
      && ascending store'
  end.

(** The test of [onFailedAttempt]:
    [err instanceof HTTPResponseError && err.statusCode < 500 &&
     err.statusCode !== 429]. *)
Definition rethrown (err : FetchError) : bool :=
  match as_HTTPResponseError err with
  | Some statusCode => (statusCode <? 500) && negb (statusCode =? 429)
  | None => false
  end.

(** The character classes of the capturing groups of a pattern, in order. *)
Fixpoint group_classes (re : Regex) : list (ascii -> bool) :=
  match re with
  | [] => []
  | GroupPlus cls :: re' => cls :: group_classes re'
  | _ :: re' => group_classes re'
  end.

(** A captured group: one or more characters of its class. *)
Definition captured (cls : ascii -> bool) (cap : string) : Prop :=
  all_chars cls cap = true /\ cap <> EmptyString.

(** The classes of a pattern do not tell letter cases apart. *)
Fixpoint caseless (re : Regex) : Prop :=
  match re with
  | [] => True
  | Chr _ :: re' => caseless re'
  | ClassPlus cls :: re' | GroupPlus cls :: re' =>
      (forall c, cls (to_upper c) = cls c) /\ caseless re'
  end.

(** Served after two server errors. *)
Definition two_errors_then_ok : Network :=
  fun n => if (n <? 2)%nat
           then Rejected (HTTPResponseError 503 "HTTP error 503: Service Unavailable")
           else Resolved (mkResponse png_headers).

(** A response error below 400, which [gmxhr] is not expected to raise. *)
Definition redirect_error : Network :=
  fun _ => Rejected (HTTPResponseError 302 "HTTP error 302: Found").

(** * Properties *)

Local Open Scope list_scope.

(** ** Lists *)

Section ListFacts.
Context {A : Type}.
Implicit Types (l : list A) (f : A -> bool).

Lemma filter_none f l : (forall x, In x l -> f x = false) -> filter f l = [].
Proof.
  induction l as [|a l IH]; simpl; intros H; [reflexivity|].
  rewrite (H a (or_introl eq_refl)). apply IH. intros x Hx. apply H. now right.
Qed.

Lemma filter_all f l : (forall x, In x l -> f x = true) -> filter f l = l.
Proof.
  induction l as [|a l IH]; simpl; intros H; [reflexivity|].
  rewrite (H a (or_introl eq_refl)). f_equal. apply IH.
  intros x Hx. apply H. now right.
Qed.

Lemma filter_permutation f l l' :
  Permutation l l' -> Permutation (filter f l) (filter f l').
Proof.
  induction 1 as [| x l l' _ IH | x y l | l l' l'' _ IH1 _ IH2]; simpl.
  - constructor.
  - destruct (f x); [now constructor | assumption].
  - destruct (f x), (f y); try reflexivity. apply perm_swap.
  - now transitivity (filter f l').
Qed.

Lemma length_filter_le f l : (List.length (filter f l) <= List.length l)%nat.
Proof.
  induction l as [|a l IH]; simpl; [lia|]. destruct (f a); simpl; lia.
Qed.

Lemma sorted_app (R : A -> A -> Prop) l l' :
  StronglySorted R (l ++ l') ->
  forall x y, In x l -> In y l' -> R x y.
Proof.
  induction l as [|a l IH]; simpl; intros H x y Hx Hy; [contradiction|].
  inversion H as [|? ? Hs Hall]; subst. destruct Hx as [-> | Hx].
  - rewrite Forall_forall in Hall. apply Hall, in_or_app. now right.
  - now apply IH.
Qed.
End ListFacts.

(** ** Objects *)

Section ObjectFacts.
Context {V : Type}.
Implicit Types (o : list (string * V)) (k : string) (v : V).

Lemma has_key_In k o : has_key k o = true <-> In k (Object_keys o).
Proof.
  unfold has_key. rewrite existsb_exists. split.
  - intros (x & Hx & E). apply String.eqb_eq in E. now subst.
  - intros H. exists k. split; [assumption | apply String.eqb_refl].
Qed.

Lemma has_key_lookup k o : has_key k o = false -> lookup k o = None.
Proof.
  unfold has_key. induction o as [|[k' v'] o IH]; simpl; [reflexivity|].
  rewrite orb_false_iff. intros [E H]. rewrite String.eqb_sym in E.
  rewrite E. now apply IH.
Qed.

Lemma lookup_has_key k o v : lookup k o = Some v -> has_key k o = true.
Proof.
  destruct (has_key k o) eqn:E; [reflexivity|].
  rewrite (has_key_lookup _ _ E). discriminate.
Qed.

Lemma lookup_In k o v : lookup k o = Some v -> In (k, v) o.
Proof.
  induction o as [|[k' v'] o IH]; simpl; [discriminate|].
  destruct (String.eqb k' k) eqn:E.
  - apply String.eqb_eq in E. intros [= ->]. subst. now left.
  - intros H. right. now apply IH.
Qed.

Lemma In_lookup k o v :
  NoDup (Object_keys o) -> In (k, v) o -> lookup k o = Some v.
Proof.
  induction o as [|[k' v'] o IH]; simpl; [contradiction|].
  intros ND [E | Hin]; inversion ND as [|? ? Hnot ND']; subst.
  - injection E as -> ->. now rewrite String.eqb_refl.
  - destruct (String.eqb k' k) eqn:E.
    + apply String.eqb_eq in E. subst k'. exfalso. apply Hnot.
      change k with (fst (k, v)). now apply in_map.
    + now apply IH.
Qed.

Lemma lookup_replace_eq k v o :
  has_key k o = true -> lookup k (replace k v o) = Some v.
Proof.
  unfold has_key. induction o as [|[k' v'] o IH]; simpl; [discriminate|].
  destruct (String.eqb k' k) eqn:E; simpl.
  - now rewrite String.eqb_refl.
  - rewrite E. rewrite String.eqb_sym, E. simpl. exact IH.
Qed.

Lemma lookup_replace_ne k k' v o :
  k' <> k -> lookup k' (replace k v o) = lookup k' o.
Proof.
  intros Hne. induction o as [|[k2 v2] o IH]; simpl; [reflexivity|].
  destruct (String.eqb k2 k) eqn:E; simpl.
  - apply String.eqb_eq in E. subst k2.
    apply not_eq_sym, String.eqb_neq in Hne. now rewrite Hne.
  - now rewrite IH.
Qed.

Lemma length_replace k v o : List.length (replace k v o) = List.length o.
Proof.
  induction o as [|[k' v'] o IH]; simpl; [reflexivity|].
  destruct (String.eqb k' k); simpl; congruence.
Qed.

Lemma keys_replace k v o : Object_keys (replace k v o) = Object_keys o.
Proof.
  induction o as [|[k' v'] o IH]; simpl; [reflexivity|].
  destruct (String.eqb k' k) eqn:E; simpl.
  - apply String.eqb_eq in E. now subst.
  - now rewrite IH.
Qed.

Lemma insert_index_perm i k v o : Permutation (insert_index i k v o) ((k, v) :: o).
Proof.
  induction o as [|[k' v'] o IH]; simpl; [reflexivity|].
  destruct (array_index k') as [j|]; [|reflexivity].
  destruct (j <? i); [|reflexivity].
  rewrite IH. apply perm_swap.
Qed.

Lemma lookup_insert_index_eq i k v o :
  has_key k o = false -> lookup k (insert_index i k v o) = Some v.
Proof.
  unfold has_key. induction o as [|[k' v'] o IH]; simpl.
  - now rewrite String.eqb_refl.
  - rewrite orb_false_iff. intros [E H].
    destruct (array_index k') as [j|]; simpl.
    + destruct (j <? i); simpl.
      * rewrite String.eqb_sym, E. now apply IH.
      * now rewrite String.eqb_refl.
    + now rewrite String.eqb_refl.
Qed.

Lemma lookup_insert_index_ne i k k' v o :
  k' <> k -> lookup k' (insert_index i k v o) = lookup k' o.
Proof.
  intros Hne. assert (E : String.eqb k k' = false)
    by now apply String.eqb_neq, not_eq_sym.
  induction o as [|[k2 v2] o IH]; simpl.
  - now rewrite E.
  - destruct (array_index k2) as [j|]; simpl.
    + destruct (j <? i); simpl.
      * now rewrite IH.
      * now rewrite E.
    + now rewrite E.
Qed.

Lemma lookup_app k o o' :
  lookup k (o ++ o') = match lookup k o with Some v => Some v | None => lookup k o' end.
Proof.
  induction o as [|[k' v'] o IH]; simpl; [reflexivity|].
  now destruct (String.eqb k' k).
Qed.

(** Reading back the property just assigned. *)
Lemma lookup_assign_eq k v o : lookup k (assign k v o) = Some v.
Proof.
  unfold assign. destruct (has_key k o) eqn:E.
  - now apply lookup_replace_eq.
  - destruct (array_index k) as [i|].
    + now apply lookup_insert_index_eq.
    + rewrite lookup_app, (has_key_lookup _ _ E). simpl.
      now rewrite String.eqb_refl.
Qed.

(** Assigning one property leaves the others as they were. *)
Lemma lookup_assign_ne k k' v o :
  k' <> k -> lookup k' (assign k v o) = lookup k' o.
Proof.
  intros Hne. unfold assign. destruct (has_key k o).
  - now apply lookup_replace_ne.
  - destruct (array_index k) as [i|].
    + now apply lookup_insert_index_ne.
    + rewrite lookup_app. destruct (lookup k' o); [reflexivity|]. simpl.
      apply not_eq_sym, String.eqb_neq in Hne. now rewrite Hne.
Qed.

Lemma assign_perm k v o :
  has_key k o = false -> Permutation (assign k v o) ((k, v) :: o).
Proof.
  intros E. unfold assign. rewrite E. destruct (array_index k) as [i|].
  - apply insert_index_perm.
  - symmetry. apply Permutation_cons_append.
Qed.

Lemma length_assign k v o :
  List.length (assign k v o)
  = if has_key k o then List.length o else S (List.length o).
Proof.
  destruct (has_key k o) eqn:E.
  - unfold assign. rewrite E. apply length_replace.
  - now rewrite (Permutation_length (assign_perm k v o E)).
Qed.

Lemma keys_assign_NoDup k v o :
  NoDup (Object_keys o) -> NoDup (Object_keys (assign k v o)).
Proof.
  intros ND. destruct (has_key k o) eqn:E.
  - unfold assign. rewrite E. now rewrite keys_replace.
  - unfold Object_keys.
    eapply Permutation_NoDup;
      [symmetry; apply Permutation_map, (assign_perm k v o E)|].
    simpl. constructor; [|assumption].
    intros Hin. apply has_key_In in Hin. congruence.
Qed.

Lemma distinct_NoDup (ks : list string) : distinct ks = true <-> NoDup ks.
Proof.
  induction ks as [|k ks IH]; simpl.
  - split; [constructor | reflexivity].
  - rewrite andb_true_iff, negb_true_iff, IH. split.
    + intros [Hn ND]. constructor; [|assumption].
      intros Hin. assert (existsb (String.eqb k) ks = true); [|congruence].
      apply existsb_exists. exists k. split; [assumption | apply String.eqb_refl].
    + intros ND. inversion ND as [|? ? Hnot ND']; subst. split; [|assumption].
      destruct (existsb (String.eqb k) ks) eqn:E; [|reflexivity].
      apply existsb_exists in E. destruct E as (x & Hx & E).
      apply String.eqb_eq in E. subst. contradiction.
Qed.

Lemma count_key_NoDup k o :
  NoDup (Object_keys o) -> has_key k o = true -> count_key k o = 1%nat.
Proof.
  unfold count_key, has_key. induction (Object_keys o) as [|k' ks IH]; simpl.
  - discriminate.
  - intros ND. inversion ND as [|? ? Hnot ND']; subst.
    destruct (String.eqb k k') eqn:E; simpl.
    + intros _. apply String.eqb_eq in E. subst k'.
      assert (F : filter (String.eqb k) ks = []).
      { apply filter_none. intros x Hx.
        destruct (String.eqb k x) eqn:E; [|reflexivity].
        apply String.eqb_eq in E. subst. contradiction. }
      now rewrite F.
    + now apply IH.
Qed.
End ObjectFacts.

(** ** Sorting and eviction *)

Lemma sort_insert_perm {A} (cmp : A -> A -> Z) x l :
  Permutation (sort_insert cmp x l) (x :: l).
Proof.
  induction l as [|y l IH]; simpl; [reflexivity|].
  destruct (0 <? cmp x y); [|reflexivity].
  rewrite IH. apply perm_swap.
Qed.

Lemma sort_perm {A} (cmp : A -> A -> Z) l : Permutation (sort cmp l) l.
Proof.
  induction l as [|x l IH]; simpl; [reflexivity|].
  rewrite sort_insert_perm. now constructor.
Qed.

Lemma sort_insert_sorted x l :
  StronglySorted not_older l ->
  StronglySorted not_older (sort_insert newest_first x l).
Proof.
  induction l as [|y l IH]; simpl; intros H.
  - repeat constructor.
  - inversion H as [|? ? Hs Hall]; subst.
    unfold newest_first at 1. destruct (Z.ltb_spec 0 (addedDatetime (snd y) - addedDatetime (snd x))).
    + constructor; [now apply IH|].
      rewrite Forall_forall in *. intros z Hz.
      apply (Permutation_in _ (sort_insert_perm newest_first x l)) in Hz.
      destruct Hz as [<- | Hz]; [unfold not_older; lia | now apply Hall].
    + constructor; [assumption|]. constructor; [unfold not_older; lia|].
      rewrite Forall_forall in *. intros z Hz. specialize (Hall z Hz).
      unfold not_older in *. lia.
Qed.

(** The sorted entries run from the most recently written to the oldest. *)
Lemma sort_sorted l : StronglySorted not_older (sort newest_first l).
Proof.
  induction l as [|x l IH]; simpl; [constructor | now apply sort_insert_sorted].
Qed.

Section DeleteFacts.
Context {V : Type}.
Implicit Types (o : list (string * V)) (k : string).

Lemma lookup_key_filter (q : string -> bool) k o :
  lookup k (filter (fun kv => q (fst kv)) o) = if q k then lookup k o else None.
Proof.
  induction o as [|[k' v'] o IH]; simpl; [now destruct (q k)|].
  destruct (String.eqb k' k) eqn:E.
  - apply String.eqb_eq in E. subst k'. destruct (q k) eqn:Q; simpl.
    + now rewrite String.eqb_refl.
    + exact IH.
  - destruct (q k'); simpl; [now rewrite E|]; exact IH.
Qed.
End DeleteFacts.

Lemma delete_all_nil vs : delete_all vs [] = [].
Proof. induction vs as [|v vs IH]; simpl; [reflexivity | exact IH]. Qed.

Lemma delete_all_cons vs kv o :
  delete_all vs (kv :: o)
  = if spared vs kv then kv :: delete_all vs o else delete_all vs o.
Proof.
  revert o. induction vs as [|v vs IH]; intros o; [reflexivity|].
  unfold delete_all, spared in *. simpl.
  destruct (String.eqb (fst kv) (fst v)); simpl; [reflexivity | apply IH].
Qed.

(** The loop of deletions removes exactly the properties whose key is the
    key of a victim. *)
Lemma delete_all_filter vs o : delete_all vs o = filter (spared vs) o.
Proof.
  induction o as [|kv o IH]; simpl.
  - apply delete_all_nil.
  - rewrite delete_all_cons, IH. reflexivity.
Qed.

Lemma lookup_delete_all vs k o :
  lookup k (delete_all vs o)
  = if existsb (String.eqb k) (Object_keys vs) then None else lookup k o.
Proof.
  rewrite delete_all_filter. unfold spared.
  rewrite (lookup_key_filter (fun k => negb (existsb (String.eqb k) (Object_keys vs)))).
  now destruct (existsb (String.eqb k) (Object_keys vs)).
Qed.

Lemma evict_victims store : evict store = delete_all (victims store) store.
Proof.
  unfold evict, victims.
  destruct (MAX_CACHED_IMAGES <=? List.length (Object_keys store))%nat; reflexivity.
Qed.

(** Eviction only removes entries: what is found afterwards was there. *)
Lemma lookup_evict_Some k store e :
  lookup k (evict store) = Some e -> lookup k store = Some e.
Proof.
  rewrite evict_victims, lookup_delete_all.
  now destruct (existsb (String.eqb k) (Object_keys (victims store))).
Qed.

Lemma lookup_evict_spared k store :
  ~ In k (Object_keys (victims store)) ->
  lookup k (evict store) = lookup k store.
Proof.
  intros H. rewrite evict_victims, lookup_delete_all.
  destruct (existsb (String.eqb k) (Object_keys (victims store))) eqn:E; [|reflexivity].
  exfalso. apply H. apply existsb_exists in E. destruct E as (x & Hx & E).
  apply String.eqb_eq in E. now subst.
Qed.

Lemma lookup_evict_victim k store :
  In k (Object_keys (victims store)) -> lookup k (evict store) = None.
Proof.
  intros H. rewrite evict_victims, lookup_delete_all.
  destruct (existsb (String.eqb k) (Object_keys (victims store))) eqn:E; [reflexivity|].
  assert (existsb (String.eqb k) (Object_keys (victims store)) = true); [|congruence].
  apply existsb_exists. exists k. split; [assumption | apply String.eqb_refl].
Qed.

(** After eviction there is room for one more entry. *)
Lemma length_evict store :
  (List.length (evict store) <= MAX_CACHED_IMAGES - 1)%nat.
Proof.
  unfold evict. unfold Object_keys. rewrite length_map.
  destruct (Nat.leb_spec MAX_CACHED_IMAGES (List.length store)) as [Hfull | Hroom].
  2: { unfold MAX_CACHED_IMAGES in *. lia. }
  set (sorted := sort newest_first (Object_entries store)).
  set (vs := slice (MAX_CACHED_IMAGES - 1) sorted).
  rewrite delete_all_filter.
  assert (P : Permutation store sorted) by (symmetry; apply sort_perm).
  rewrite (Permutation_length (filter_permutation (spared vs) _ _ P)).
  rewrite <- (firstn_skipn (MAX_CACHED_IMAGES - 1) sorted) at 1.
  rewrite filter_app, length_app.
  rewrite (filter_none (spared vs) (skipn (MAX_CACHED_IMAGES - 1) sorted)).
  - pose proof (length_filter_le (spared vs) (firstn (MAX_CACHED_IMAGES - 1) sorted)).
    pose proof (firstn_le_length (MAX_CACHED_IMAGES - 1) sorted).
    cbn [List.length]. lia.
  - intros x Hx. unfold spared. apply negb_false_iff, existsb_exists.
    exists (fst x). split; [|apply String.eqb_refl].
    unfold Object_keys. now apply in_map.
Qed.

Lemma NoDup_app_disjoint {A} (l1 l2 : list A) a :
  NoDup (l1 ++ l2) -> In a l1 -> In a l2 -> False.
Proof.
  induction l1 as [|x l1 IH]; simpl; intros ND H1 H2; [contradiction|].
  inversion ND as [|? ? Hnot ND']; subst. destruct H1 as [-> | H1].
  - apply Hnot, in_or_app. now right.
  - now apply IH.
Qed.

Lemma NoDup_keys_filter {V} (f : string * V -> bool) (o : list (string * V)) :
  NoDup (Object_keys o) -> NoDup (Object_keys (filter f o)).
Proof.
  unfold Object_keys. induction o as [|kv o IH]; simpl; intros ND; [constructor|].
  inversion ND as [|? ? Hnot ND']; subst. destruct (f kv); simpl; [|now apply IH].
  constructor; [|now apply IH]. intros Hin. apply Hnot.
  apply in_map_iff in Hin. destruct Hin as (x & E & Hx).
  apply filter_In in Hx. apply in_map_iff. exists x. tauto.
Qed.

Lemma victims_incl store x : In x (victims store) -> In x store.
Proof.
  unfold victims, slice, Object_entries.
  destruct (MAX_CACHED_IMAGES <=? _)%nat; [|contradiction].
  intros H. apply (Permutation_in _ (sort_perm newest_first store)).
  rewrite <- (firstn_skipn (MAX_CACHED_IMAGES - 1)). apply in_or_app. now right.
Qed.

(** Under capacity pressure something is evicted, and the last victim is an
    entry whose [addedDatetime] is smallest in the whole store. *)
Lemma victims_oldest store :
  (MAX_CACHED_IMAGES <= List.length store)%nat ->
  exists front u,
    victims store = front ++ [u] /\
    forall x, In x store -> addedDatetime (snd u) <= addedDatetime (snd x).
Proof.
  intros Hfull. unfold victims, slice, Object_entries, Object_keys.
  rewrite length_map. apply Nat.leb_le in Hfull as Hb. rewrite Hb.
  set (sorted := sort newest_first store).
  assert (Hlen : List.length sorted = List.length store)
    by apply Permutation_length, sort_perm.
  destruct (exists_last (l := skipn (MAX_CACHED_IMAGES - 1) sorted)) as (front & u & E).
  { intros Hnil. apply (f_equal (@List.length _)) in Hnil.
    rewrite length_skipn in Hnil. simpl in Hnil. unfold MAX_CACHED_IMAGES in *. lia. }
  exists front, u. split; [exact E|]. intros x Hx.
  apply (Permutation_in _ (Permutation_sym (sort_perm newest_first store))) in Hx.
  fold sorted in Hx.
  pose proof (sort_sorted store) as Hs. fold sorted in Hs.
  rewrite <- (firstn_skipn (MAX_CACHED_IMAGES - 1) sorted), E, app_assoc in Hs, Hx.
  apply in_app_or in Hx. destruct Hx as [Hx | [<- | []]]; [|lia].
  apply (sorted_app not_older _ _ Hs x u Hx). now left.
Qed.

Lemma length_victims store :
  (MAX_CACHED_IMAGES <= List.length store)%nat ->
  List.length (victims store) = (List.length store - (MAX_CACHED_IMAGES - 1))%nat.
Proof.
  intros Hfull. unfold victims, slice, Object_entries, Object_keys.
  rewrite length_map. apply Nat.leb_le in Hfull. rewrite Hfull, length_skipn.
  now rewrite (Permutation_length (sort_perm newest_first store)).
Qed.

(** A full store of exactly [MAX_CACHED_IMAGES] entries has one victim. *)
Lemma victims_single store :
  List.length store = MAX_CACHED_IMAGES ->
  exists u, victims store = [u] /\
    forall x, In x store -> addedDatetime (snd u) <= addedDatetime (snd x).
Proof.
  intros Hlen. destruct (victims_oldest store) as (front & u & E & Hmin); [lia|].
  exists u. split; [|exact Hmin].
  assert (L := length_victims store ltac:(lia)).
  rewrite E, length_app, Hlen in L. unfold MAX_CACHED_IMAGES in L. simpl in L.
  destruct front; [exact E | simpl in L; lia].
Qed.

(** With distinct keys, eviction from a full store leaves exactly
    [MAX_CACHED_IMAGES - 1] entries. *)
Lemma length_evict_full store :
  NoDup (Object_keys store) ->
  (MAX_CACHED_IMAGES <= List.length store)%nat ->
  List.length (evict store) = (MAX_CACHED_IMAGES - 1)%nat.
Proof.
  intros ND Hfull. unfold evict, Object_keys. rewrite length_map.
  apply Nat.leb_le in Hfull as Hb. rewrite Hb. unfold Object_entries, slice.
  set (sorted := sort newest_first store).
  set (vs := skipn (MAX_CACHED_IMAGES - 1) sorted).
  rewrite delete_all_filter.
  assert (P : Permutation store sorted) by (symmetry; apply sort_perm).
  rewrite (Permutation_length (filter_permutation (spared vs) _ _ P)).
  rewrite <- (firstn_skipn (MAX_CACHED_IMAGES - 1) sorted) at 1.
  rewrite filter_app, length_app. fold vs.
  rewrite (filter_none (spared vs) vs), (filter_all (spared vs)).
  - rewrite length_firstn, <- (Permutation_length P). cbn [List.length]. lia.
  - intros x Hx. unfold spared. apply negb_true_iff.
    destruct (existsb _ _) eqn:E; [|reflexivity]. exfalso.
    apply existsb_exists in E. destruct E as (k & Hk & E).
    apply String.eqb_eq in E. subst k.
    assert (NDs : NoDup (Object_keys sorted)).
    { unfold Object_keys. eapply Permutation_NoDup; [apply Permutation_map, P | exact ND]. }
    rewrite <- (firstn_skipn (MAX_CACHED_IMAGES - 1) sorted) in NDs.
    unfold Object_keys in NDs. rewrite map_app in NDs.
    apply (NoDup_app_disjoint _ _ (fst x) NDs); [now apply in_map | exact Hk].
  - intros x Hx. unfold spared. apply negb_false_iff, existsb_exists.
    exists (fst x). split; [|apply String.eqb_refl].
    unfold Object_keys. now apply in_map.
Qed.

Lemma evict_NoDup store :
  NoDup (Object_keys store) -> NoDup (Object_keys (evict store)).
Proof.
  intros ND. rewrite evict_victims, delete_all_filter. now apply NoDup_keys_filter.
Qed.

Lemma has_key_filter {V} (q : string -> bool) k (o : list (string * V)) :
  has_key k (filter (fun kv => q (fst kv)) o) = has_key k o && q k.
Proof.
  unfold has_key. induction o as [|[k' v'] o IH]; simpl; [reflexivity|].
  destruct (String.eqb k k') eqn:E.
  - apply String.eqb_eq in E. subst k'. destruct (q k) eqn:Q; simpl.
    + now rewrite String.eqb_refl.
    + rewrite IH. apply andb_false_r.
  - destruct (q k'); simpl; [rewrite E|]; exact IH.
Qed.

Lemma has_key_evict k store :
  has_key k (evict store)
  = has_key k store && negb (existsb (String.eqb k) (Object_keys (victims store))).
Proof.
  rewrite evict_victims, delete_all_filter.
  exact (has_key_filter
           (fun k => negb (existsb (String.eqb k) (Object_keys (victims store)))) k store).
Qed.

(** ** Reading and writing the world *)

Lemma stored_putInfo now k pe w :
  stored (exec (putInfo now k pe) w) = assign k (stamp pe now) (evict (stored w)).
Proof. destruct w as [[[raw|s]|] hist log n]; reflexivity. Qed.

Lemma localStorage_putInfo now k pe w :
  localStorage (exec (putInfo now k pe) w)
  = Some (JSON_stringify (assign k (stamp pe now) (evict (stored w)))).
Proof. destruct w as [[[raw|s]|] hist log n]; reflexivity. Qed.

Lemma stored_putDimensions now k d w :
  stored (exec (putDimensions now k d) w)
  = assign k (stamp (with_dimensions (lookup k (stored w)) d) now) (evict (stored w)).
Proof. destruct w as [[[raw|s]|] hist log n]; reflexivity. Qed.

Lemma stored_putFileInfo now k f w :
  stored (exec (putFileInfo now k f) w)
  = assign k (stamp (with_fileInfo (lookup k (stored w)) f) now) (evict (stored w)).
Proof. destruct w as [[[raw|s]|] hist log n]; reflexivity. Qed.

Lemma entry_of_stored k w : entry_of k w = lookup k (stored w).
Proof. destruct w as [[[raw|s]|] hist log n]; reflexivity. Qed.

(** Reading does not change what is stored. *)
Lemma stored_read op w :
  (forall k, write_time k op = None) -> stored (exec (step op) w) = stored w.
Proof.
  intros H. destruct op as [| k | k | k | now k e | now k d | now k f];
    try (destruct w as [[[raw|s]|] hist log n]; reflexivity);
    specialize (H k); simpl in H; rewrite String.eqb_refl in H; discriminate.
Qed.

(** A write of [k] at time [t] stores an entry stamped [t] under [k]. *)
Lemma step_write op k t w :
  write_time k op = Some t ->
  exists e, entry_of k (exec (step op) w) = Some e /\ addedDatetime e = t.
Proof.
  destruct op as [| k' | k' | k' | now k' pe | now k' d | now k' f]; simpl;
    try discriminate.
  all: destruct (String.eqb_spec k' k) as [-> | Hne]; try discriminate.
  all: intros [= ->]; rewrite entry_of_stored.
  - rewrite stored_putInfo, lookup_assign_eq. eauto.
  - rewrite stored_putDimensions, lookup_assign_eq. eauto.
  - rewrite stored_putFileInfo, lookup_assign_eq. eauto.
Qed.

(** An operation that is not a write of [k] leaves the entry of [k] as it
    was, if it leaves it at all. *)
Lemma step_other op k e w :
  write_time k op = None ->
  entry_of k (exec (step op) w) = Some e -> entry_of k w = Some e.
Proof.
  rewrite !entry_of_stored.
  destruct op as [| k' | k' | k' | now k' pe | now k' d | now k' f];
    cbn [write_time];
    try (intros _; rewrite stored_read; [tauto | reflexivity]).
  all: destruct (String.eqb_spec k' k) as [-> | Hne]; try discriminate; intros _.
  all: cbn [step].
  - rewrite stored_putInfo, lookup_assign_ne by congruence. apply lookup_evict_Some.
  - rewrite stored_putDimensions, lookup_assign_ne by congruence. apply lookup_evict_Some.
  - rewrite stored_putFileInfo, lookup_assign_ne by congruence. apply lookup_evict_Some.
Qed.

(** ** The cache *)

(** C1. Whatever the world holds under the cache key (nothing, malformed
    text or a store of any size) and whatever is written, the store that
    [putInfo] has persisted when it returns has at most [MAX_CACHED_IMAGES]
    (30) entries. *)
Theorem putInfo_capacity (w : World) (now : Z) (k : string) (pe : PartialEntry) :
  exists store,
    localStorage (exec (putInfo now k pe) w) = Some (JSON_stringify store) /\
    stored (exec (putInfo now k pe) w) = store /\
    (List.length (Object_keys store) <= MAX_CACHED_IMAGES)%nat.
Proof.
  exists (assign k (stamp pe now) (evict (stored w))).
  split; [apply localStorage_putInfo|]. split; [apply stored_putInfo|].
  unfold Object_keys. rewrite length_map, length_assign.
  pose proof (length_evict (stored w)) as H. unfold MAX_CACHED_IMAGES in *.
  destruct (has_key k (evict (stored w))); lia.
Qed.

(** C2, as claimed, fails: [putInfo] does not merge. Writing only the
    dimensions of a key whose entry holds a [fileInfo] stores an entry without
    [fileInfo]. *)
Lemma putInfo_merge_counterexample :
  ~ (forall w now k pe e,
        entry_of k w = Some e ->
        exists e', entry_of k (exec (putInfo now k pe) w) = Some e' /\
          (dimensions e <> None -> p_dimensions pe = None -> dimensions e' <> None) /\
          (fileInfo e <> None -> p_fileInfo pe = None -> fileInfo e' <> None)).
Proof.
  intros H.
  destruct (H (world_of [("https://example.org/a.png", mkCacheEntry None (Some png) 1)])
              2 "https://example.org/a.png"
              (mkPartialEntry (Some (mkDimensions 600 600)) None)
              (mkCacheEntry None (Some png) 1) eq_refl)
    as (e' & He' & _ & Hf).
  vm_compute in He'. injection He' as <-. apply Hf; [discriminate | reflexivity | reflexivity].
Qed.

(** C2, amended. [putInfo(key, partialEntry)] replaces the entry of [key]:
    the entry stored afterwards has exactly the payload fields of
    [partialEntry] (a field absent from it is absent afterwards, whatever
    the prior entry held) and the current time as [addedDatetime]. *)
Theorem putInfo_replaces_entry (w : World) (now : Z) (k : string) (pe : PartialEntry) :
  entry_of k (exec (putInfo now k pe) w)
  = Some (mkCacheEntry (p_dimensions pe) (p_fileInfo pe) now).
Proof. rewrite entry_of_stored, stored_putInfo. apply lookup_assign_eq. Qed.

(** C3. Writing a new key into a store of exactly [MAX_CACHED_IMAGES] (30)
    distinct entries removes exactly one prior entry [u]; its
    [addedDatetime] is smallest among all prior entries, so the 29 retained
    ones were all written no earlier. Every other prior entry is kept
    unchanged, the new entry is stored (it is added after the eviction and is
    never evicted itself), and the store again holds 30 distinct entries. *)
Theorem putInfo_evicts_oldest (w : World) (now : Z) (k : string) (pe : PartialEntry) :
  well_formed (stored w) = true ->
  List.length (stored w) = MAX_CACHED_IMAGES ->
  has_key k (stored w) = false ->
  exists u eu,
    lookup u (stored w) = Some eu /\
    (forall k' e', lookup k' (stored w) = Some e' ->
                   addedDatetime eu <= addedDatetime e') /\
    lookup u (stored (exec (putInfo now k pe) w)) = None /\
    lookup k (stored (exec (putInfo now k pe) w)) = Some (stamp pe now) /\
    (forall k', k' <> u -> k' <> k ->
       lookup k' (stored (exec (putInfo now k pe) w)) = lookup k' (stored w)) /\
    List.length (stored (exec (putInfo now k pe) w)) = MAX_CACHED_IMAGES /\
    well_formed (stored (exec (putInfo now k pe) w)) = true.
Proof.
  intros Hwf Hlen Hnew. apply distinct_NoDup in Hwf.
  destruct (victims_single _ Hlen) as ([u eu] & Hv & Hmin).
  assert (Hin : In (u, eu) (stored w)) by (apply victims_incl; rewrite Hv; now left).
  assert (Hu : lookup u (stored w) = Some eu) by now apply In_lookup.
  assert (Hne : u <> k).
  { intros ->. apply lookup_has_key in Hu. congruence. }
  exists u, eu. rewrite stored_putInfo. repeat split.
  - exact Hu.
  - intros k' e' H. apply lookup_In in H. exact (Hmin _ H).
  - rewrite lookup_assign_ne by exact Hne.
    apply lookup_evict_victim. rewrite Hv. now left.
  - apply lookup_assign_eq.
  - intros k' H1 H2. rewrite lookup_assign_ne by exact H2.
    apply lookup_evict_spared. rewrite Hv. simpl. intros [E | []]. congruence.
  - rewrite length_assign, has_key_evict, Hnew. simpl.
    rewrite length_evict_full; [reflexivity | assumption | lia].
  - apply distinct_NoDup. now apply keys_assign_NoDup, evict_NoDup.
Qed.

Lemma putInfo_evicts_oldest_witness :
  exists u eu,
    lookup u sample_store = Some eu /\
    addedDatetime eu <= 1000 /\
    lookup u (stored (exec (putInfo 2000 "https://example.org/new"
                              (mkPartialEntry None (Some png)))
                           (world_of sample_store))) = None.
Proof.
  destruct (putInfo_evicts_oldest (world_of sample_store) 2000
              "https://example.org/new" (mkPartialEntry None (Some png))
              eq_refl eq_refl eq_refl)
    as (u & eu & Hu & Hmin & Hgone & _).
  exists u, eu. split; [exact Hu|]. split; [|exact Hgone].
  apply (Hmin (sample_key 0) (sample_entry 0)). reflexivity.
Defined.

(** C6. When the text under the cache key fails to parse, [getStore]
    returns the empty store, logs one warning and persists one reset (the
    empty store), and changes nothing else; being a total function, it
    always returns. *)
Theorem getStore_malformed (w : World) :
  safeParseJSON (nullish (localStorage w) empty_object_text) = None ->
  getStore w
  = ([], mkWorld (Some (JSON_stringify []))
                 (setItems w ++ [JSON_stringify []])
                 (warnings w ++ ["Cache was malformed, resetting"%string])
                 (requests w)).
Proof.
  destruct w as [[[raw|s]|] hist log n]; simpl; intros H;
    [reflexivity | discriminate | discriminate].
Qed.

Lemma getStore_malformed_witness :
  getStore (mkWorld (Some (Malformed "{oops")) [] [] 0)
  = ([], mkWorld (Some (JSON_stringify [])) [JSON_stringify []]
                 ["Cache was malformed, resetting"%string] 0).
Proof.
  exact (getStore_malformed (mkWorld (Some (Malformed "{oops")) [] [] 0) eq_refl).
Defined.

(** C7. [putDimensions] followed by [putFileInfo] on the same key, or the
    other way round, leaves one entry for that key holding both the
    dimensions and the file info; each of the two writers keeps the other
    payload field of an existing entry. *)
Theorem put_both_fields (w : World) (t1 t2 : Z) (k : string)
    (d : Dimensions) (f : FileInfo) :
  well_formed (stored w) = true ->
  let wd := exec (putDimensions t1 k d) w in
  let wf := exec (putFileInfo t1 k f) w in
  (entry_of k (exec (putFileInfo t2 k f) wd) = Some (mkCacheEntry (Some d) (Some f) t2) /\
   count_key k (stored (exec (putFileInfo t2 k f) wd)) = 1%nat) /\
  (entry_of k (exec (putDimensions t2 k d) wf) = Some (mkCacheEntry (Some d) (Some f) t2) /\
   count_key k (stored (exec (putDimensions t2 k d) wf)) = 1%nat) /\
  (forall e, entry_of k w = Some e ->
             entry_of k wd = Some (mkCacheEntry (Some d) (fileInfo e) t1) /\
             entry_of k wf = Some (mkCacheEntry (dimensions e) (Some f) t1)).
Proof.
  intros Hwf wd wf. apply distinct_NoDup in Hwf.
  assert (Hd : lookup k (stored wd) = Some (mkCacheEntry (Some d)
            (match lookup k (stored w) with Some e => fileInfo e | None => None end) t1)).
  { unfold wd. rewrite stored_putDimensions. apply lookup_assign_eq. }
  assert (Hf : lookup k (stored wf) = Some (mkCacheEntry
            (match lookup k (stored w) with Some e => dimensions e | None => None end)
            (Some f) t1)).
  { unfold wf. rewrite stored_putFileInfo. apply lookup_assign_eq. }
  assert (NDd : NoDup (Object_keys (stored wd))).
  { unfold wd. rewrite stored_putDimensions. now apply keys_assign_NoDup, evict_NoDup. }
  assert (NDf : NoDup (Object_keys (stored wf))).
  { unfold wf. rewrite stored_putFileInfo. now apply keys_assign_NoDup, evict_NoDup. }
  repeat split.
  - rewrite entry_of_stored, stored_putFileInfo, lookup_assign_eq, Hd. reflexivity.
  - rewrite stored_putFileInfo. apply count_key_NoDup.
    + now apply keys_assign_NoDup, evict_NoDup.
    + eapply lookup_has_key, lookup_assign_eq.
  - rewrite entry_of_stored, stored_putDimensions, lookup_assign_eq, Hf. reflexivity.
  - rewrite stored_putDimensions. apply count_key_NoDup.
    + now apply keys_assign_NoDup, evict_NoDup.
    + eapply lookup_has_key, lookup_assign_eq.
  - rewrite entry_of_stored in *. rewrite Hd. now rewrite H.
  - rewrite entry_of_stored in *. rewrite Hf. now rewrite H.
Qed.

Lemma put_both_fields_witness :
  entry_of (sample_key 3)
    (exec (putFileInfo 2001 (sample_key 3) png)
       (exec (putDimensions 2000 (sample_key 3) (mkDimensions 1200 1200))
          (world_of sample_store)))
  = Some (mkCacheEntry (Some (mkDimensions 1200 1200)) (Some png) 2001).
Proof.
  exact (proj1 (proj1 (put_both_fields (world_of sample_store) 2000 2001
                         (sample_key 3) (mkDimensions 1200 1200) png eq_refl))).
Defined.

(** C9. The [addedDatetime] stored for a key is the time of the most
    recent write to it. After any sequence of cache operations:
    - a further write of the key (by [putInfo], [putDimensions] or
      [putFileInfo], a first insertion or an update alike) leaves an entry
      for the key whose [addedDatetime] is the time of that write;
    - the [addedDatetime] found for a key is the time of the last write to
      that key in the sequence; if the sequence does not write the key, its
      entry is the one that was there before: no read and no write to
      another key changes it. *)
Theorem addedDatetime_is_last_write (ops : list Op) (w : World) (k : string) :
  (forall op t,
      write_time k op = Some t ->
      exists e, entry_of k (run (ops ++ [op]) w) = Some e /\ addedDatetime e = t) /\
  (forall e,
      entry_of k (run ops w) = Some e ->
      match last_write k ops with
      | Some t => addedDatetime e = t
      | None => entry_of k w = Some e
      end).
Proof.
  split.
  - intros op t W. unfold run. rewrite fold_left_app. cbn [fold_left].
    apply step_write. exact W.
  - revert w. induction ops as [|op ops IH]; intros w e H; simpl in *; [exact H|].
    specialize (IH _ _ H). destruct (last_write k ops) as [t|]; [exact IH|].
    destruct (write_time k op) as [t|] eqn:W.
    + destruct (step_write op k t w W) as (e' & He' & Ht). congruence.
    + now apply (step_other op k e w W).
Qed.

Lemma addedDatetime_is_last_write_witness :
  (exists e,
      entry_of (sample_key 3)
        (run ([PutInfo 2000 "https://example.org/new" (mkPartialEntry None None);
               GetInfo (sample_key 3)]
              ++ [PutFileInfo 2002 (sample_key 3) png])
           (world_of sample_store)) = Some e
      /\ addedDatetime e = 2002)
  /\ addedDatetime (mkCacheEntry (Some (mkDimensions 600 600)) (Some png) 30) = 30.
Proof.
  split.
  - exact (proj1 (addedDatetime_is_last_write
                    [PutInfo 2000 "https://example.org/new" (mkPartialEntry None None);
                     GetInfo (sample_key 3)]
                    (world_of sample_store) (sample_key 3))
             (PutFileInfo 2002 (sample_key 3) png) 2002 eq_refl).
  - exact (proj2 (addedDatetime_is_last_write
             [PutInfo 10 "https://example.org/a" (mkPartialEntry (Some (mkDimensions 600 600)) None);
              PutDimensions 20 "https://example.org/b" (mkDimensions 500 500);
              PutFileInfo 30 "https://example.org/a" png;
              GetInfo "https://example.org/b";
              PutFileInfo 40 "https://example.org/b" png]
             (mkWorld None [] [] 0) "https://example.org/a")
             (mkCacheEntry (Some (mkDimensions 600 600)) (Some png) 30) eq_refl).
Defined.

(** C10. Updating a key that is already present in a store of
    [MAX_CACHED_IMAGES] or more distinct entries still evicts: an entry [u]
    whose [addedDatetime] is smallest in the store is among those deleted.
    If [u] is another key it is gone afterwards, and the store is left with
    29 entries when the updated key was not itself deleted (so always when
    the store held exactly 30 and [u] is another key), and with 30 when it
    was deleted and added again. *)
Theorem putInfo_update_evicts (w : World) (now : Z) (k : string) (pe : PartialEntry) :
  well_formed (stored w) = true ->
  (MAX_CACHED_IMAGES <= List.length (stored w))%nat ->
  has_key k (stored w) = true ->
  exists u eu,
    lookup u (stored w) = Some eu /\
    (forall k' e', lookup k' (stored w) = Some e' ->
                   addedDatetime eu <= addedDatetime e') /\
    In u (Object_keys (victims (stored w))) /\
    (u <> k -> lookup u (stored (exec (putInfo now k pe) w)) = None) /\
    List.length (stored (exec (putInfo now k pe) w))
    = (if existsb (String.eqb k) (Object_keys (victims (stored w)))
       then MAX_CACHED_IMAGES else MAX_CACHED_IMAGES - 1)%nat /\
    (List.length (stored w) = MAX_CACHED_IMAGES -> u <> k ->
     List.length (stored (exec (putInfo now k pe) w)) = (MAX_CACHED_IMAGES - 1)%nat).
Proof.
  intros Hwf Hfull Hk. apply distinct_NoDup in Hwf.
  destruct (victims_oldest _ Hfull) as (front & [u eu] & Hv & Hmin).
  assert (Hvic : In (u, eu) (victims (stored w)))
    by (rewrite Hv; apply in_or_app; right; now left).
  assert (Hu : lookup u (stored w) = Some eu)
    by (apply In_lookup; [assumption | now apply victims_incl]).
  assert (Hlen : List.length (stored (exec (putInfo now k pe) w))
    = (if existsb (String.eqb k) (Object_keys (victims (stored w)))
       then MAX_CACHED_IMAGES else MAX_CACHED_IMAGES - 1)%nat).
  { rewrite stored_putInfo, length_assign, has_key_evict, Hk.
    rewrite (length_evict_full _ Hwf Hfull).
    now destruct (existsb (String.eqb k) (Object_keys (victims (stored w)))). }
  exists u, eu. repeat split.
  - exact Hu.
  - intros k' e' H. apply lookup_In in H. exact (Hmin _ H).
  - unfold Object_keys. change u with (fst (u, eu)). now apply in_map.
  - intros Hne. rewrite stored_putInfo, lookup_assign_ne by exact Hne.
    apply lookup_evict_victim. unfold Object_keys.
    change u with (fst (u, eu)). now apply in_map.
  - exact Hlen.
  - intros Hexact Hne. rewrite Hlen.
    destruct (victims_single _ Hexact) as (u' & Hv' & _).
    rewrite Hv' in Hv. destruct front as [|x [|y front]]; try discriminate.
    injection Hv as ->. rewrite Hv'. simpl.
    apply not_eq_sym, String.eqb_neq in Hne. now rewrite Hne.
Qed.

Lemma putInfo_update_evicts_witness :
  exists u,
    u <> sample_key 5 /\
    lookup u (stored (world_of sample_store)) <> None /\
    lookup u (stored (exec (putInfo 2000 (sample_key 5) (mkPartialEntry None (Some png)))
                           (world_of sample_store))) = None /\
    List.length (stored (exec (putInfo 2000 (sample_key 5) (mkPartialEntry None (Some png)))
                              (world_of sample_store)))
    = 29%nat.
Proof.
  destruct (putInfo_update_evicts (world_of sample_store) 2000 (sample_key 5)
              (mkPartialEntry None (Some png)) eq_refl (Nat.le_refl _) eq_refl)
    as (u & eu & Hu & _ & Hvic & Hgone & Hlen & _).
  exists u. destruct Hvic as [<- | []].
  assert (Hne : sample_key 0 <> sample_key 5) by discriminate.
  split; [exact Hne|]. split; [rewrite Hu; discriminate|].
  split; [exact (Hgone Hne) | exact Hlen].
Defined.

(** ** The fetcher *)

Section Retry.
Variable net : Network.

Local Abbreviation attempt := (pRetry_attempt (gmxhr net) onFailedAttempt).

Lemma after_attempts_0 w : after_attempts 0 [] w = w.
Proof.
  destruct w as [ls hist log n]. unfold after_attempts. simpl.
  now rewrite app_nil_r, Nat.add_0_r.
Qed.

Lemma after_attempts_compose n m msgs msgs' w :
  after_attempts m msgs' (after_attempts n msgs w)
  = after_attempts (n + m) (msgs ++ msgs') w.
Proof.
  unfold after_attempts. simpl. now rewrite app_assoc, Nat.add_assoc.
Qed.

(** A resolved request ends the retrying. *)
Lemma attempt_resolved n w resp :
  net (requests w) = Resolved resp ->
  attempt n w = (Resolved resp, after_attempts 1 [] w).
Proof.
  intros H. unfold after_attempts.
  destruct n; simpl; unfold bind, gmxhr, ret; rewrite H;
    now rewrite app_nil_r, Nat.add_1_r.
Qed.

Lemma client_error_not_transient err :
  client_error err = true -> transient err = false.
Proof.
  destruct err as [c m|m]; simpl; [|discriminate]. intros C.
  apply andb_true_iff in C. destruct C as [C C2].
  apply andb_true_iff in C. destruct C as [_ C1].
  apply negb_true_iff in C2. rewrite C2, orb_false_r.
  apply Z.ltb_lt in C1. apply Z.leb_gt. exact C1.
Qed.

(** A failure that is not transient is thrown again by [onFailedAttempt]:
    no warning, no further request. *)
Lemma attempt_thrown n w err :
  net (requests w) = Rejected err -> transient err = false ->
  attempt n w = (Rejected err, after_attempts 1 [] w).
Proof.
  intros H T. unfold after_attempts.
  destruct err as [c m|m]; [|discriminate]. simpl in T.
  apply orb_false_iff in T. destruct T as [T1 T2].
  assert (F : (c <? 500) && negb (c =? 429) = true).
  { rewrite T2. apply Z.leb_gt in T1. apply Z.ltb_lt in T1. now rewrite T1. }
  destruct n; simpl; unfold bind, gmxhr, onFailedAttempt, ret; rewrite H;
    simpl; rewrite F; now rewrite app_nil_r, Nat.add_1_r.
Qed.

Lemma onFailedAttempt_transient err w :
  transient err = true ->
  onFailedAttempt err w
  = (Resolved tt, mkWorld (localStorage w) (setItems w)
                          (warnings w ++ [retrying_message err]) (requests w)).
Proof.
  intros T. unfold onFailedAttempt. destruct err as [c m|m]; simpl in *.
  - assert (F : (c <? 500) && negb (c =? 429) = false).
    { apply orb_true_iff in T. destruct T as [T | T].
      - apply Z.leb_le in T. apply andb_false_iff. left. apply Z.ltb_ge. exact T.
      - rewrite T. apply andb_false_r. }
    rewrite F. reflexivity.
  - reflexivity.
Qed.

(** A transient failure is logged; it is the outcome when no retry is
    left, and is followed by another attempt otherwise. *)
Lemma attempt_transient_last w err :
  net (requests w) = Rejected err -> transient err = true ->
  attempt 0%nat w = (Rejected err, after_attempts 1 [retrying_message err] w).
Proof.
  intros H T. unfold after_attempts.
  simpl; unfold bind at 1; unfold gmxhr at 1; rewrite H;
    unfold bind at 1; rewrite (onFailedAttempt_transient _ _ T); simpl;
    now rewrite Nat.add_1_r.
Qed.

Lemma attempt_transient_retry n w err :
  net (requests w) = Rejected err -> transient err = true ->
  attempt (S n) w = attempt n (after_attempts 1 [retrying_message err] w).
Proof.
  intros H T. unfold after_attempts.
  cbn [pRetry_attempt]; unfold bind at 1; unfold gmxhr at 1; rewrite H;
    unfold bind at 1; rewrite (onFailedAttempt_transient _ _ T); cbn [requests];
    now rewrite Nat.add_1_r.
Qed.

(** After [i] transient failures the retrying goes on from the world that
    saw [i] requests and [i] warnings, with [i] retries less. *)
Lemma attempt_after_transients i n w :
  all_transient net (requests w) i = true ->
  attempt (i + n)%nat w
  = attempt n (after_attempts i (map retrying_message (failures net (requests w) i)) w).
Proof.
  revert w. induction i as [|i IH]; intros w H.
  - cbn [Nat.add failures map]. now rewrite after_attempts_0.
  - cbn [all_transient failures] in *.
    destruct (net (requests w)) as [resp|err] eqn:E; [discriminate|].
    apply andb_true_iff in H. destruct H as [T H].
    change (S i + n)%nat with (S (i + n)).
    rewrite (attempt_transient_retry _ _ _ E T), IH.
    + rewrite after_attempts_compose. cbn [after_attempts requests map app].
      rewrite Nat.add_1_r. reflexivity.
    + cbn [after_attempts requests]. now rewrite Nat.add_1_r.
Qed.

(** Every attempt issues a request, and the log only grows. *)
Lemma attempt_progress n w :
  (requests w < requests (snd (attempt n w)))%nat /\
  exists more, warnings (snd (attempt n w)) = warnings w ++ more.
Proof.
  revert w. induction n as [|n IH]; intros w;
    destruct (net (requests w)) as [resp|err] eqn:E.
  1, 3: rewrite (attempt_resolved _ _ _ E); simpl; split; [lia | now exists []].
  all: destruct (transient err) eqn:T.
  2, 4: rewrite (attempt_thrown _ _ _ E T); simpl; split; [lia | now exists []].
  - rewrite (attempt_transient_last _ _ E T). simpl. split; [lia | eauto].
  - rewrite (attempt_transient_retry _ _ _ E T).
    destruct (IH (after_attempts 1 [retrying_message err] w)) as (Hr & more & Hm).
    simpl in Hr. split; [lia|]. rewrite Hm. simpl. rewrite <- app_assoc. eauto.
Qed.

Lemma loadFileInfo_attempt w :
  loadFileInfo net w
  = match attempt 5 w with
    | (Resolved resp, w') => (Resolved (headers_fileInfo resp), w')
    | (Rejected err, w') => (Rejected err, w')
    end.
Proof.
  unfold loadFileInfo, pRetry, bind.
  destruct (pRetry_attempt (gmxhr net) onFailedAttempt 5 w) as [[resp|err] w']; reflexivity.
Qed.
End Retry.

Lemma all_transient_snoc net from n :
  all_transient net from (S n) = true ->
  all_transient net from n = true /\
  exists err, net (from + n)%nat = Rejected err /\ transient err = true.
Proof.
  revert from. induction n as [|n IH]; intros from H.
  - cbn [all_transient] in H. destruct (net from) as [resp|err] eqn:E; [discriminate|].
    apply andb_true_iff in H. split; [reflexivity|].
    exists err. now rewrite Nat.add_0_r.
  - change (all_transient net from (S (S n)))
      with (match net from with
            | Rejected err => transient err && all_transient net (S from) (S n)
            | Resolved _ => false
            end) in H.
    cbn [all_transient]. destruct (net from) as [resp|err] eqn:E; [discriminate|].
    apply andb_true_iff in H. destruct H as [T H].
    destruct (IH _ H) as (H1 & err' & H2 & H3). split.
    + now rewrite T, H1.
    + exists err'. now rewrite <- Nat.add_succ_comm.
Qed.

Lemma exec_loadFileInfo net w :
  exec (loadFileInfo net) w = snd (pRetry_attempt (gmxhr net) onFailedAttempt 5 w).
Proof.
  unfold exec. rewrite loadFileInfo_attempt.
  now destruct (pRetry_attempt (gmxhr net) onFailedAttempt 5 w) as [[resp|err] w'].
Qed.

(** C4. Let the first [i] requests (at most five) fail with transient
    failures (a network error, a 5xx or a 429 response) and let the next
    request fail with [err].
    - If [err] is an HTTP response error with a status of at least 400 and
      below 500 other than 429, [loadFileInfo] is rejected with [err] right
      there: no warning for it and no further request (with [i = 0]: one
      request, zero retries).
    - If [err] is transient, a warning for it is logged after those of the
      earlier failures, and while retries are left (fewer than five used)
      another request is issued.
    [gmxhr] raises an HTTP response error for no status below 400. *)
Theorem loadFileInfo_retry_rule (net : Network) (w : World) (i : nat)
    (err : FetchError) :
  (i <= 5)%nat ->
  all_transient net (requests w) i = true ->
  net (requests w + i)%nat = Rejected err ->
  (client_error err = true ->
   loadFileInfo net w
   = (Rejected err,
      after_attempts (i + 1) (map retrying_message (failures net (requests w) i)) w))
  /\
  (transient err = true ->
   (exists more,
      warnings (exec (loadFileInfo net) w)
      = warnings w ++ map retrying_message (failures net (requests w) i)
          ++ [retrying_message err] ++ more) /\
   ((i < 5)%nat -> (requests w + i + 2 <= requests (exec (loadFileInfo net) w))%nat)).
Proof.
  intros Hi Hpre Herr.
  set (msgs := map retrying_message (failures net (requests w) i)).
  assert (Hrun : pRetry_attempt (gmxhr net) onFailedAttempt 5 w
                 = pRetry_attempt (gmxhr net) onFailedAttempt (5 - i)
                     (after_attempts i msgs w)).
  { replace 5%nat with (i + (5 - i))%nat at 1 by lia.
    now apply attempt_after_transients. }
  assert (Hnext : net (requests (after_attempts i msgs w)) = Rejected err) by exact Herr.
  split.
  - intros C. apply client_error_not_transient in C.
    rewrite loadFileInfo_attempt, Hrun, (attempt_thrown _ _ _ _ Hnext C).
    now rewrite after_attempts_compose, app_nil_r.
  - intros T. rewrite exec_loadFileInfo, Hrun.
    destruct (5 - i)%nat as [|m] eqn:Hm.
    + rewrite (attempt_transient_last _ _ _ Hnext T). split; [|lia].
      exists []. simpl. now rewrite <- app_assoc.
    + rewrite (attempt_transient_retry _ _ _ _ Hnext T).
      destruct (attempt_progress net m
                  (after_attempts 1 [retrying_message err] (after_attempts i msgs w)))
        as (Hr & more & Hw).
      split.
      * exists more. rewrite Hw. simpl. now rewrite <- !app_assoc.
      * intros _. simpl in Hr. lia.
Qed.

Lemma loadFileInfo_retry_rule_witness :
  loadFileInfo not_found_then_ok (mkWorld None [] [] 0)
  = (Rejected (HTTPResponseError 404 "HTTP error 404: Not Found"),
     mkWorld None [] [] 1)
  /\ (3 <= requests (exec (loadFileInfo rate_limited_thrice) (mkWorld None [] [] 0)))%nat.
Proof.
  split.
  - exact (proj1 (loadFileInfo_retry_rule not_found_then_ok (mkWorld None [] [] 0) 0
                    (HTTPResponseError 404 "HTTP error 404: Not Found")
                    (Nat.le_0_l 5) eq_refl eq_refl) eq_refl).
  - refine (proj2 (proj2 (loadFileInfo_retry_rule rate_limited_thrice
                            (mkWorld None [] [] 0) 1
                            (HTTPResponseError 429 "HTTP error 429: Too Many Requests")
                            _ eq_refl eq_refl) eq_refl) _); lia.
Defined.

(** C5. When six requests in a row fail with transient failures,
    [loadFileInfo] issues exactly six requests (the first attempt and five
    retries) and is rejected with the failure of the last one. *)
Theorem loadFileInfo_retries_exhausted (net : Network) (w : World)
    (last : FetchError) :
  all_transient net (requests w) 6 = true ->
  net (requests w + 5)%nat = Rejected last ->
  eval (loadFileInfo net) w = Rejected last /\
  requests (exec (loadFileInfo net) w) = (requests w + 6)%nat.
Proof.
  intros H Hlast. destruct (all_transient_snoc _ _ _ H) as (H5 & err & E & T).
  rewrite Hlast in E. injection E as <-.
  set (msgs := map retrying_message (failures net (requests w) 5)).
  assert (Hrun : pRetry_attempt (gmxhr net) onFailedAttempt 5 w
                 = pRetry_attempt (gmxhr net) onFailedAttempt 0
                     (after_attempts 5 msgs w))
    by exact (attempt_after_transients net 5 0 w H5).
  assert (Hnext : net (requests (after_attempts 5 msgs w)) = Rejected last)
    by exact Hlast.
  unfold exec, eval. rewrite loadFileInfo_attempt, Hrun.
  rewrite (attempt_transient_last net _ last Hnext T). simpl. split; [reflexivity | lia].
Qed.

Lemma loadFileInfo_retries_exhausted_witness :
  eval (loadFileInfo always_500) (mkWorld None [] [] 0)
  = Rejected (HTTPResponseError 500 "HTTP error 500: Internal Server Error")
  /\ requests (exec (loadFileInfo always_500) (mkWorld None [] [] 0)) = 6%nat.
Proof.
  exact (loadFileInfo_retries_exhausted always_500 (mkWorld None [] [] 0)
           (HTTPResponseError 500 "HTTP error 500: Internal Server Error")
           eq_refl eq_refl).
Defined.

(** ** Reading the response headers *)








Lemma leading_all p s : all_chars p s = true -> leading p s = s.
Proof.
  induction s as [|c s IH]; simpl; [reflexivity|]. intros H.
  apply andb_true_iff in H. destruct H as [Hc H]. rewrite Hc. now rewrite IH.
Qed.





(** ** More on the cache *)

(** X1. While the text under the cache key parses (a missing item counts as
    the empty store), reading is free of effects: [getStore], [getInfo],
    [getDimensions] and [getFileInfo] leave local storage and the log as
    they were. [getStore] returns the store; [getDimensions] and
    [getFileInfo] return the field of the entry stored under the key, and
    nothing when there is none; [getInfo] returns the entry stored under
    the key, and nothing when there is none and the key is not a name that
    objects inherit (for such a name, [store[imageUrl]] finds the inherited
    member). *)
Theorem reads_leave_world (w : World) (store : CacheStore) (k : string) :
  safeParseJSON (nullish (localStorage w) empty_object_text) = Some store ->
  getStore w = (store, w) /\
  exec (getInfo k) w = w /\
  (forall e, lookup k store = Some e -> eval (getInfo k) w = Some e) /\
  (inherited k = false -> eval (getInfo k) w = lookup k store) /\
  getDimensions k w
  = (match lookup k store with Some e => dimensions e | None => None end, w) /\
  getFileInfo k w
  = (match lookup k store with Some e => fileInfo e | None => None end, w).
Proof.
  destruct w as [[[raw|s]|] hist log n]; simpl; intros [= <-]; repeat split;
    unfold eval; simpl; congruence.
Qed.

Lemma reads_leave_world_witness :
  getStore (mkWorld (Some (JSON_stringify sample_store)) [JSON_stringify []]
                    ["Cache was malformed, resetting"%string] 3)
  = (sample_store,
     mkWorld (Some (JSON_stringify sample_store)) [JSON_stringify []]
             ["Cache was malformed, resetting"%string] 3)
  /\ eval (getInfo (sample_key 3))
        (mkWorld (Some (JSON_stringify sample_store)) [JSON_stringify []]
                 ["Cache was malformed, resetting"%string] 3)
     = Some (sample_entry 3)
  /\ eval (getInfo "https://example.org/absent")
        (mkWorld (Some (JSON_stringify sample_store)) [JSON_stringify []]
                 ["Cache was malformed, resetting"%string] 3)
     = None.
Proof.
  split; [|split].
  - exact (proj1 (reads_leave_world
                    (mkWorld (Some (JSON_stringify sample_store)) [JSON_stringify []]
                             ["Cache was malformed, resetting"%string] 3)
                    sample_store (sample_key 3) eq_refl)).
  - exact (proj1 (proj2 (proj2 (reads_leave_world
                    (mkWorld (Some (JSON_stringify sample_store)) [JSON_stringify []]
                             ["Cache was malformed, resetting"%string] 3)
                    sample_store (sample_key 3) eq_refl)))
             (sample_entry 3) eq_refl).
  - exact (proj1 (proj2 (proj2 (proj2 (reads_leave_world
                    (mkWorld (Some (JSON_stringify sample_store)) [JSON_stringify []]
                             ["Cache was malformed, resetting"%string] 3)
                    sample_store "https://example.org/absent" eq_refl))))
             eq_refl).
Defined.

(** X2. Recovery from malformed text happens once: whatever the world,
    a second [getStore] right after a first returns the same store and
    changes nothing any more (no further warning, no further write). *)
Theorem getStore_twice (w : World) :
  getStore (exec getStore w) = (eval getStore w, exec getStore w).
Proof. destruct w as [[[raw|s]|] hist log n]; reflexivity. Qed.

(** X3. The writes and warnings of [putInfo]. On text that parses it
    persists once and logs nothing. On malformed text it logs the one
    warning, persists the reset and then the new store, which holds the
    written entry only. *)
Theorem putInfo_effects (w : World) (now : Z) (k : string) (pe : PartialEntry) :
  (forall store,
      safeParseJSON (nullish (localStorage w) empty_object_text) = Some store ->
      putInfo now k pe w
      = (tt, mkWorld (Some (JSON_stringify (assign k (stamp pe now) (evict store))))
                     (setItems w ++ [JSON_stringify (assign k (stamp pe now) (evict store))])
                     (warnings w) (requests w))) /\
  (safeParseJSON (nullish (localStorage w) empty_object_text) = None ->
   putInfo now k pe w
   = (tt, mkWorld (Some (JSON_stringify [(k, stamp pe now)]))
                  (setItems w ++ [JSON_stringify []; JSON_stringify [(k, stamp pe now)]])
                  (warnings w ++ ["Cache was malformed, resetting"%string])
                  (requests w))).
Proof.
  destruct w as [[[raw|s]|] hist log n]; simpl; split;
    try (intros store [= <-]; reflexivity); try discriminate; intros _.
  unfold putInfo, bind, getStore, putStore, localStorage_setItem, LOGGER_warn,
    localStorage_getItem, ret. simpl. unfold assign. simpl.
  rewrite <- app_assoc. now destruct (array_index k).
Qed.

Lemma putInfo_effects_witness :
  putInfo 7 "https://example.org/a" (mkPartialEntry None (Some png))
    (mkWorld (Some (Malformed "{oops")) [] [] 0)
  = (tt, mkWorld (Some (JSON_stringify [("https://example.org/a"%string,
                                          mkCacheEntry None (Some png) 7)]))
                 [JSON_stringify [];
                  JSON_stringify [("https://example.org/a"%string,
                                   mkCacheEntry None (Some png) 7)]]
                 ["Cache was malformed, resetting"%string] 0).
Proof.
  exact (proj2 (putInfo_effects (mkWorld (Some (Malformed "{oops")) [] [] 0) 7
                  "https://example.org/a" (mkPartialEntry None (Some png))) eq_refl).
Defined.

Lemma victims_below store :
  (List.length store < MAX_CACHED_IMAGES)%nat -> victims store = [].
Proof.
  intros H. unfold victims, Object_keys. rewrite length_map.
  apply Nat.leb_gt in H. now rewrite H.
Qed.

(** X4. Below capacity nothing is evicted: with fewer than
    [MAX_CACHED_IMAGES] entries stored, [putInfo] leaves every other key as
    it was, and the store grows by one entry for a new key and keeps its
    size for a key that was present. *)
Theorem putInfo_below_capacity (w : World) (now : Z) (k : string) (pe : PartialEntry) :
  (List.length (stored w) < MAX_CACHED_IMAGES)%nat ->
  (forall k', k' <> k ->
     lookup k' (stored (exec (putInfo now k pe) w)) = lookup k' (stored w)) /\
  List.length (stored (exec (putInfo now k pe) w))
  = (if has_key k (stored w) then List.length (stored w)
     else S (List.length (stored w))).
Proof.
  intros H. rewrite stored_putInfo.
  assert (E : evict (stored w) = stored w).
  { rewrite evict_victims, (victims_below _ H). reflexivity. }
  rewrite E. split.
  - intros k' Hne. now apply lookup_assign_ne.
  - apply length_assign.
Qed.

Lemma putInfo_below_capacity_witness :
  List.length (stored (exec (putInfo 7 "https://example.org/b"
                               (mkPartialEntry None (Some png)))
                         (world_of [("https://example.org/a"%string, sample_entry 0)])))
  = 2%nat.
Proof.
  refine (proj2 (putInfo_below_capacity
                   (world_of [("https://example.org/a"%string, sample_entry 0)]) 7
                   "https://example.org/b" (mkPartialEntry None (Some png)) _)).
  unfold MAX_CACHED_IMAGES. simpl. lia.
Defined.

Lemma victims_after_newest store v x :
  In v (victims store) -> In x (evict store) ->
  addedDatetime (snd v) <= addedDatetime (snd x).
Proof.
  intros Hv Hx. rewrite evict_victims, delete_all_filter in Hx.
  apply filter_In in Hx. destruct Hx as [Hx Hs].
  assert (Hnot : ~ In x (victims store)).
  { intros Hin. unfold spared in Hs. apply negb_true_iff in Hs.
    assert (existsb (String.eqb (fst x)) (Object_keys (victims store)) = true);
      [|congruence].
    apply existsb_exists. exists (fst x). split; [|apply String.eqb_refl].
    unfold Object_keys. now apply in_map. }
  unfold victims, slice, Object_entries in *.
  destruct (MAX_CACHED_IMAGES <=? _)%nat; [|contradiction].
  pose proof (sort_sorted store) as Hsorted.
  apply (Permutation_in _ (Permutation_sym (sort_perm newest_first store))) in Hx.
  rewrite <- (firstn_skipn (MAX_CACHED_IMAGES - 1) (sort newest_first store))
    in Hsorted, Hx.
  apply in_app_or in Hx. destruct Hx as [Hx | Hx]; [|contradiction].
  exact (sorted_app not_older _ _ Hsorted x v Hx Hv).
Qed.

(** X5. Eviction in general, also for a store that holds more than
    [MAX_CACHED_IMAGES] entries (say, after writes from another tab). With
    [n >= 30] entries stored, [putInfo] deletes [n - 29] of them;
    another key is gone afterwards exactly when it is among them and is
    unchanged otherwise; and every deleted entry was written no later than
    every prior entry that is retained. *)
Theorem putInfo_evicts_oldest_first (w : World) (now : Z) (k : string)
    (pe : PartialEntry) :
  (MAX_CACHED_IMAGES <= List.length (stored w))%nat ->
  List.length (victims (stored w))
  = (List.length (stored w) - (MAX_CACHED_IMAGES - 1))%nat /\
  (forall k', k' <> k ->
     lookup k' (stored (exec (putInfo now k pe) w))
     = if existsb (String.eqb k') (Object_keys (victims (stored w)))
       then None else lookup k' (stored w)) /\
  (forall v k' e',
     In v (victims (stored w)) -> k' <> k ->
     lookup k' (stored (exec (putInfo now k pe) w)) = Some e' ->
     addedDatetime (snd v) <= addedDatetime e').
Proof.
  intros Hfull. rewrite stored_putInfo. split; [now apply length_victims|].
  split.
  - intros k' Hne. rewrite lookup_assign_ne by exact Hne.
    rewrite evict_victims. apply lookup_delete_all.
  - intros v k' e' Hv Hne H. rewrite lookup_assign_ne in H by exact Hne.
    apply lookup_In in H. exact (victims_after_newest _ v (k', e') Hv H).
Qed.

Lemma putInfo_evicts_oldest_first_witness :
  List.length (victims (sample_store ++ [("https://example.org/extra"%string,
                                          sample_entry 40)]))
  = 2%nat.
Proof.
  exact (proj1 (putInfo_evicts_oldest_first
                  (world_of (sample_store ++ [("https://example.org/extra"%string,
                                               sample_entry 40)]))
                  2000 "https://example.org/new" (mkPartialEntry None None)
                  (Nat.le_succ_diag_r 30))).
Defined.

Lemma step_NoDup op w :
  NoDup (Object_keys (stored w)) ->
  NoDup (Object_keys (stored (exec (step op) w))).
Proof.
  intros ND. destruct op as [| k | k | k | now k pe | now k d | now k f];
    try (rewrite stored_read; [assumption | reflexivity]); cbn [step].
  - rewrite stored_putInfo. now apply keys_assign_NoDup, evict_NoDup.
  - rewrite stored_putDimensions. now apply keys_assign_NoDup, evict_NoDup.
  - rewrite stored_putFileInfo. now apply keys_assign_NoDup, evict_NoDup.
Qed.

Lemma length_assign_evict k (e : CacheEntry) store :
  (List.length (assign k e (evict store)) <= MAX_CACHED_IMAGES)%nat.
Proof.
  rewrite length_assign. pose proof (length_evict store) as H.
  unfold MAX_CACHED_IMAGES in *. destruct (has_key k (evict store)); lia.
Qed.

Lemma step_capacity op w :
  (List.length (stored w) <= MAX_CACHED_IMAGES)%nat ->
  (List.length (stored (exec (step op) w)) <= MAX_CACHED_IMAGES)%nat.
Proof.
  intros H. destruct op as [| k | k | k | now k pe | now k d | now k f];
    try (rewrite stored_read; [assumption | reflexivity]); cbn [step].
  - rewrite stored_putInfo. apply length_assign_evict.
  - rewrite stored_putDimensions. apply length_assign_evict.
  - rewrite stored_putFileInfo. apply length_assign_evict.
Qed.

(** X6. Two invariants of the cache hold along every sequence of its
    operations, reads and writes in any order: a store with distinct keys
    keeps distinct keys, and a store within capacity stays within
    capacity. *)
Theorem run_invariants (ops : list Op) (w : World) :
  well_formed (stored w) = true ->
  (List.length (stored w) <= MAX_CACHED_IMAGES)%nat ->
  well_formed (stored (run ops w)) = true /\
  (List.length (stored (run ops w)) <= MAX_CACHED_IMAGES)%nat.
Proof.
  revert w. induction ops as [|op ops IH]; intros w Hwf Hcap; [now split|].
  apply (IH (exec (step op) w)).
  - apply distinct_NoDup, step_NoDup. now apply distinct_NoDup.
  - now apply step_capacity.
Qed.

Lemma run_invariants_witness :
  (List.length (stored (run [PutInfo 2000 "https://example.org/new" (mkPartialEntry None None);
                             GetInfo (sample_key 0);
                             PutDimensions 2001 (sample_key 1) (mkDimensions 1 1)]
                            (world_of sample_store)))
   <= MAX_CACHED_IMAGES)%nat.
Proof.
  exact (proj2 (run_invariants
                  [PutInfo 2000 "https://example.org/new" (mkPartialEntry None None);
                   GetInfo (sample_key 0);
                   PutDimensions 2001 (sample_key 1) (mkDimensions 1 1)]
                  (world_of sample_store) eq_refl (Nat.le_refl 30))).
Defined.

Lemma sort_insert_oldest x l :
  forallb (fun y => addedDatetime (snd x) <? addedDatetime (snd y)) l = true ->
  sort_insert newest_first x l = l ++ [x].
Proof.
  induction l as [|y l IH]; simpl; [reflexivity|]. intros H.
  apply andb_true_iff in H. destruct H as [Hy H]. unfold newest_first at 1.
  apply Z.ltb_lt in Hy.
  destruct (Z.ltb_spec 0 (addedDatetime (snd y) - addedDatetime (snd x))); [|lia].
  now rewrite IH.
Qed.

(** Entries enumerated oldest first are sorted into the reverse order. *)
Lemma sort_ascending store : ascending store = true -> sort newest_first store = rev store.
Proof.
  induction store as [|x l IH]; simpl; [reflexivity|]. intros H.
  apply andb_true_iff in H. destruct H as [Hx H]. rewrite (IH H).
  apply sort_insert_oldest. apply forallb_forall. intros y Hy.
  apply in_rev in Hy. rewrite forallb_forall in Hx. now apply Hx.
Qed.

Lemma evict_ascending store :
  NoDup (Object_keys store) -> ascending store = true ->
  evict store = skipn (List.length store - (MAX_CACHED_IMAGES - 1)) store.
Proof.
  intros ND Hasc. unfold evict, Object_keys, Object_entries, slice.
  rewrite length_map.
  destruct (Nat.leb_spec MAX_CACHED_IMAGES (List.length store)) as [Hfull | Hroom].
  2: { replace (List.length store - (MAX_CACHED_IMAGES - 1))%nat with 0%nat
         by (unfold MAX_CACHED_IMAGES in *; lia). reflexivity. }
  rewrite (sort_ascending _ Hasc), skipn_rev, delete_all_filter.
  set (m := (List.length store - (MAX_CACHED_IMAGES - 1))%nat).
  set (vs := rev (firstn m store)).
  rewrite <- (firstn_skipn m store) at 1. rewrite filter_app.
  rewrite (filter_none (spared vs) (firstn m store)), (filter_all (spared vs)).
  - reflexivity.
  - intros x Hx. unfold spared. apply negb_true_iff.
    destruct (existsb _ _) eqn:E; [|reflexivity]. exfalso.
    apply existsb_exists in E. destruct E as (k & Hk & E).
    apply String.eqb_eq in E. subst k.
    rewrite <- (firstn_skipn m store) in ND. unfold Object_keys in ND, Hk.
    rewrite map_app in ND. unfold vs in Hk. rewrite map_rev in Hk.
    apply in_rev in Hk.
    apply (NoDup_app_disjoint _ _ (fst x) ND); [exact Hk | now apply in_map].
  - intros x Hx. unfold spared. apply negb_false_iff, existsb_exists.
    exists (fst x). split; [|apply String.eqb_refl].
    unfold Object_keys, vs. rewrite map_rev. apply in_rev. rewrite rev_involutive.
    now apply in_map.
Qed.

(** X7. First in, first out. When the stored entries are enumerated from
    the oldest to the newest (as they are when each key was written once,
    at increasing times), eviction drops a prefix of the enumeration:
    [putInfo] keeps the last 29 entries, in their order, and assigns the
    written key into them. *)
Theorem putInfo_first_in_first_out (w : World) (now : Z) (k : string)
    (pe : PartialEntry) :
  well_formed (stored w) = true ->
  ascending (stored w) = true ->
  stored (exec (putInfo now k pe) w)
  = assign k (stamp pe now)
      (skipn (List.length (stored w) - (MAX_CACHED_IMAGES - 1)) (stored w)).
Proof.
  intros Hwf Hasc. apply distinct_NoDup in Hwf.
  now rewrite stored_putInfo, evict_ascending.
Qed.

Lemma putInfo_first_in_first_out_witness :
  stored (exec (putInfo 2000 "https://example.org/new" (mkPartialEntry None None))
            (world_of sample_store))
  = skipn 1 sample_store
    ++ [("https://example.org/new"%string, mkCacheEntry None None 2000)].
Proof.
  exact (putInfo_first_in_first_out (world_of sample_store) 2000
           "https://example.org/new" (mkPartialEntry None None) eq_refl eq_refl).
Defined.

(** X8. The accessors read back what the writers wrote, in any world and
    also when the write evicts: after [putDimensions] the dimensions of the
    key are the ones written and its file info is what it was before (absent
    if the key was new), and likewise for [putFileInfo]. *)
Theorem accessors_after_writers (w : World) (now : Z) (k : string)
    (d : Dimensions) (f : FileInfo) :
  eval (getDimensions k) (exec (putDimensions now k d) w) = Some d /\
  eval (getFileInfo k) (exec (putDimensions now k d) w) = eval (getFileInfo k) w /\
  eval (getFileInfo k) (exec (putFileInfo now k f) w) = Some f /\
  eval (getDimensions k) (exec (putFileInfo now k f) w) = eval (getDimensions k) w.
Proof.
  assert (G : forall w', eval (getDimensions k) w'
                = match lookup k (stored w') with Some e => dimensions e | None => None end)
    by (intros [[[raw|s]|] hist log n]; reflexivity).
  assert (F : forall w', eval (getFileInfo k) w'
                = match lookup k (stored w') with Some e => fileInfo e | None => None end)
    by (intros [[[raw|s]|] hist log n]; reflexivity).
  rewrite !G, !F, stored_putDimensions, stored_putFileInfo, !lookup_assign_eq.
  repeat split.
Qed.

Lemma ascending_skipn n store : ascending store = true -> ascending (skipn n store) = true.
Proof.
  revert store. induction n as [|n IH]; intros [|x l]; simpl; try tauto.
  intros H. apply andb_true_iff in H. now apply IH.
Qed.

Lemma ascending_snoc store x :
  ascending store = true ->
  forallb (fun y => addedDatetime (snd y) <? addedDatetime (snd x)) store = true ->
  ascending (store ++ [x]) = true.
Proof.
  induction store as [|y l IH]; simpl; [reflexivity|]. intros H Hx.
  apply andb_true_iff in H. destruct H as [Hy H].
  apply andb_true_iff in Hx. destruct Hx as [Hyx Hx].
  rewrite (IH H Hx), andb_true_r, forallb_app, Hy. simpl. now rewrite Hyx.
Qed.

(** X9. The oldest-first enumeration is kept by writes of new keys at later
    times: when the stored entries are enumerated oldest first and a key that
    is not stored (and is not an array index such as ["7"]) is written at a
    time later than all stored ones, the store afterwards is the last 29
    prior entries (all of them if there were fewer than 30), in their order,
    followed by the new entry, and it is again enumerated oldest first. *)
Theorem putInfo_keeps_ascending (w : World) (now : Z) (k : string)
    (pe : PartialEntry) :
  well_formed (stored w) = true ->
  ascending (stored w) = true ->
  has_key k (stored w) = false ->
  array_index k = None ->
  forallb (fun y => addedDatetime (snd y) <? now) (stored w) = true ->
  stored (exec (putInfo now k pe) w)
  = skipn (List.length (stored w) - (MAX_CACHED_IMAGES - 1)) (stored w)
    ++ [(k, mkCacheEntry (p_dimensions pe) (p_fileInfo pe) now)] /\
  ascending (stored (exec (putInfo now k pe) w)) = true.
Proof.
  intros Hwf Hasc Hnew Hidx Hlate. apply distinct_NoDup in Hwf.
  rewrite stored_putInfo, (evict_ascending _ Hwf Hasc).
  set (kept := skipn _ (stored w)).
  assert (Hk : has_key k kept = false).
  { destruct (has_key k kept) eqn:E; [|reflexivity].
    apply has_key_In in E. unfold Object_keys, kept in E.
    apply in_map_iff in E. destruct E as (x & Ex & Hx).
    assert (has_key k (stored w) = true); [|congruence].
    apply has_key_In. unfold Object_keys. rewrite <- Ex. apply in_map.
    rewrite <- (firstn_skipn (List.length (stored w) - (MAX_CACHED_IMAGES - 1))).
    apply in_or_app. now right. }
  unfold assign. rewrite Hk, Hidx. split; [reflexivity|].
  apply ascending_snoc; [now apply ascending_skipn|].
  apply forallb_forall. intros y Hy. rewrite forallb_forall in Hlate.
  apply Hlate. unfold kept in Hy.
  rewrite <- (firstn_skipn (List.length (stored w) - (MAX_CACHED_IMAGES - 1))).
  apply in_or_app. now right.
Qed.

Lemma putInfo_keeps_ascending_witness :
  stored (exec (putInfo 2000 "https://example.org/new" (mkPartialEntry None (Some png)))
            (world_of sample_store))
  = skipn 1 sample_store
    ++ [("https://example.org/new"%string, mkCacheEntry None (Some png) 2000)]
  /\ ascending (stored (exec (putInfo 2000 "https://example.org/new"
                                 (mkPartialEntry None (Some png)))
                          (world_of sample_store))) = true.
Proof.
  exact (putInfo_keeps_ascending (world_of sample_store) 2000
           "https://example.org/new" (mkPartialEntry None (Some png))
           eq_refl eq_refl eq_refl eq_refl eq_refl).
Defined.

(** ** More on the fetcher *)

Lemma rethrown_not_transient err : rethrown err = negb (transient err).
Proof.
  destruct err as [c m|m]; [|reflexivity].
  unfold rethrown, transient, as_HTTPResponseError.
  now rewrite negb_orb, (Z.ltb_antisym 500 c).
Qed.

Lemma length_failures net from i :
  all_transient net from i = true -> List.length (failures net from i) = i.
Proof.
  revert from. induction i as [|i IH]; intros from H; simpl in *; [reflexivity|].
  destruct (net from); [discriminate|]. apply andb_true_iff in H. simpl.
  f_equal. now apply IH.
Qed.

(** The retrying ends with the outcome of the last request it issued, after
    at least one and at most [retries + 1] requests and at most one warning
    for each. *)
Lemma attempt_shape net n w :
  exists m msgs,
    (1 <= m <= S n)%nat /\ (List.length msgs <= m)%nat /\
    pRetry_attempt (gmxhr net) onFailedAttempt n w
    = (net (requests w + (m - 1))%nat, after_attempts m msgs w).
Proof.
  revert w. induction n as [|n IH]; intros w;
    destruct (net (requests w)) as [resp|err] eqn:E.
  1, 3: exists 1%nat, []; rewrite (attempt_resolved _ _ _ _ E); simpl;
    rewrite Nat.add_0_r, E; repeat split; lia.
  all: destruct (transient err) eqn:T.
  2, 4: exists 1%nat, []; rewrite (attempt_thrown _ _ _ _ E T); simpl;
    rewrite Nat.add_0_r, E; repeat split; lia.
  - exists 1%nat, [retrying_message err].
    rewrite (attempt_transient_last _ _ _ E T). simpl.
    rewrite Nat.add_0_r, E. repeat split; lia.
  - rewrite (attempt_transient_retry _ _ _ _ E T).
    destruct (IH (after_attempts 1 [retrying_message err] w))
      as (m & msgs & Hm & Hl & Hrun).
    exists (1 + m)%nat, ([retrying_message err] ++ msgs). rewrite Hrun.
    rewrite after_attempts_compose. repeat split; try lia.
    + simpl. lia.
    + f_equal. cbn [after_attempts requests]. f_equal. lia.
Qed.

(** X10. Bounds and frame of [loadFileInfo], whatever the server does: it
    issues at least one and at most six requests, logs at most one warning
    for each request, and does not touch local storage. *)
Theorem loadFileInfo_bounds (net : Network) (w : World) :
  (requests w < requests (exec (loadFileInfo net) w) <= requests w + 6)%nat /\
  (exists msgs,
      warnings (exec (loadFileInfo net) w) = warnings w ++ msgs /\
      (List.length msgs <= requests (exec (loadFileInfo net) w) - requests w)%nat) /\
  localStorage (exec (loadFileInfo net) w) = localStorage w /\
  setItems (exec (loadFileInfo net) w) = setItems w.
Proof.
  rewrite exec_loadFileInfo.
  destruct (attempt_shape net 5 w) as (m & msgs & Hm & Hl & Hrun).
  rewrite Hrun. simpl. repeat split; try lia.
  exists msgs. split; [reflexivity | lia].
Qed.

(** X11. The test the code applies: an HTTP response error with a status
    below 500 other than 429 (the test has no lower bound, so also one below
    400, should one ever be raised) ends the retrying at once, after any
    number of transient failures: rejected with it, no warning for it, no
    further request. *)
Theorem loadFileInfo_rethrows (net : Network) (w : World) (i : nat)
    (err : FetchError) :
  (i <= 5)%nat ->
  all_transient net (requests w) i = true ->
  net (requests w + i)%nat = Rejected err ->
  rethrown err = true ->
  loadFileInfo net w
  = (Rejected err,
     after_attempts (i + 1) (map retrying_message (failures net (requests w) i)) w).
Proof.
  intros Hi Hpre Herr R. rewrite rethrown_not_transient in R.
  apply negb_true_iff in R.
  set (msgs := map retrying_message (failures net (requests w) i)).
  assert (Hrun : pRetry_attempt (gmxhr net) onFailedAttempt 5 w
                 = pRetry_attempt (gmxhr net) onFailedAttempt (5 - i)
                     (after_attempts i msgs w)).
  { replace 5%nat with (i + (5 - i))%nat at 1 by lia.
    now apply attempt_after_transients. }
  assert (Hnext : net (requests (after_attempts i msgs w)) = Rejected err) by exact Herr.
  rewrite loadFileInfo_attempt, Hrun, (attempt_thrown _ _ _ _ Hnext R).
  now rewrite after_attempts_compose, app_nil_r.
Qed.

Lemma loadFileInfo_rethrows_witness :
  loadFileInfo redirect_error (mkWorld None [] [] 0)
  = (Rejected (HTTPResponseError 302 "HTTP error 302: Found"), mkWorld None [] [] 1).
Proof.
  exact (loadFileInfo_rethrows redirect_error (mkWorld None [] [] 0) 0
           (HTTPResponseError 302 "HTTP error 302: Found")
           (Nat.le_0_l 5) eq_refl eq_refl eq_refl).
Defined.

(** X12. Success after retries: when at most five transient failures are
    followed by a response, [loadFileInfo] resolves with the reading of that
    response's headers, having issued one request more than there were
    failures and logged exactly one warning for each failure. *)
Theorem loadFileInfo_succeeds_after_retries (net : Network) (w : World) (i : nat)
    (resp : Response) :
  (i <= 5)%nat ->
  all_transient net (requests w) i = true ->
  net (requests w + i)%nat = Resolved resp ->
  loadFileInfo net w
  = (Resolved (headers_fileInfo resp),
     after_attempts (i + 1) (map retrying_message (failures net (requests w) i)) w)
  /\ List.length (map retrying_message (failures net (requests w) i)) = i.
Proof.
  intros Hi Hpre Hresp. split; [|rewrite length_map; now apply length_failures].
  set (msgs := map retrying_message (failures net (requests w) i)).
  assert (Hrun : pRetry_attempt (gmxhr net) onFailedAttempt 5 w
                 = pRetry_attempt (gmxhr net) onFailedAttempt (5 - i)
                     (after_attempts i msgs w)).
  { replace 5%nat with (i + (5 - i))%nat at 1 by lia.
    now apply attempt_after_transients. }
  assert (Hnext : net (requests (after_attempts i msgs w)) = Resolved resp) by exact Hresp.
  rewrite loadFileInfo_attempt, Hrun, (attempt_resolved _ _ _ _ Hnext).
  now rewrite after_attempts_compose, app_nil_r.
Qed.

Lemma loadFileInfo_succeeds_after_retries_witness :
  eval (loadFileInfo rate_limited_thrice) (mkWorld None [] [] 0)
  = Resolved (mkFileInfo (Some "PNG"%string) (Some 12345))
  /\ List.length (warnings (exec (loadFileInfo rate_limited_thrice) (mkWorld None [] [] 0)))
     = 3%nat
  /\ requests (exec (loadFileInfo rate_limited_thrice) (mkWorld None [] [] 0)) = 4%nat.
Proof.
  assert (H := proj1 (loadFileInfo_succeeds_after_retries rate_limited_thrice
                        (mkWorld None [] [] 0) 3 (mkResponse png_headers)
                        (le_S _ _ (le_S _ _ (le_n 3)))
                        eq_refl eq_refl)).
  unfold eval, exec. rewrite H. repeat split.
Defined.

(** ** More on reading the headers *)

Lemma to_upper_idem c : to_upper (to_upper c) = to_upper c.
Proof. destruct c as [[] [] [] [] [] [] [] []]; reflexivity. Qed.

Lemma is_digit_upper c : is_digit (to_upper c) = is_digit c.
Proof. destruct c as [[] [] [] [] [] [] [] []]; reflexivity. Qed.

Lemma is_word_upper c : is_word (to_upper c) = is_word c.
Proof. destruct c as [[] [] [] [] [] [] [] []]; reflexivity. Qed.

Lemma to_upper_digit c : is_digit c = true -> to_upper c = c.
Proof. destruct c as [[] [] [] [] [] [] [] []]; simpl; intros H; try reflexivity; discriminate. Qed.

Lemma toUpperCase_idem s : toUpperCase (toUpperCase s) = toUpperCase s.
Proof. induction s as [|c s IH]; simpl; [reflexivity|]. now rewrite to_upper_idem, IH. Qed.

Lemma all_chars_upper cls s :
  (forall c, cls (to_upper c) = cls c) ->
  all_chars cls (toUpperCase s) = all_chars cls s.
Proof. intros H. induction s as [|c s IH]; simpl; [reflexivity|]. now rewrite H, IH. Qed.

Lemma eq_ci_upper a b : eq_ci a b = true -> toUpperCase a = toUpperCase b.
Proof.
  revert b. induction a as [|x a IH]; intros [|y b]; simpl; try discriminate;
    [reflexivity|].
  intros H. apply andb_true_iff in H. destruct H as [E H].
  apply Ascii.eqb_eq in E. now rewrite E, (IH b H).
Qed.

Lemma plus_greedy_captured cls k (P : list string -> Prop) s run caps :
  (forall s' caps', k s' = Some caps' -> P caps') ->
  plus_greedy cls k s = Some (run, caps) -> P caps /\ captured cls run.
Proof.
  intros Hk. revert run caps. induction s as [|c s IH]; simpl; intros run caps;
    [discriminate|].
  destruct (cls c) eqn:C; [|discriminate].
  destruct (plus_greedy cls k s) as [[run' caps']|].
  - intros [= <- <-]. destruct (IH _ _ eq_refl) as (HP & Hall & _).
    split; [exact HP|]. split; [simpl; now rewrite C | discriminate].
  - destruct (k s) as [caps'|] eqn:K; [|discriminate]. intros [= <- <-].
    split; [now apply (Hk s)|]. split; [simpl; now rewrite C | discriminate].
Qed.

(** Whatever a pattern matches, each of its groups has captured one or more
    characters of its class. *)
Lemma match_here_captured re s caps :
  match_here re s = Some caps -> Forall2 captured (group_classes re) caps.
Proof.
  revert s caps. induction re as [|[p|cls|cls] re IH]; intros s caps; simpl.
  - intros [= <-]. constructor.
  - destruct s as [|c s]; [discriminate|].
    destruct (Ascii.eqb (to_upper p) (to_upper c)); [apply IH | discriminate].
  - destruct (plus_greedy cls (match_here re) s) as [[run caps']|] eqn:E;
      [|discriminate].
    intros [= <-]. exact (proj1 (plus_greedy_captured _ _ _ _ _ _ IH E)).
  - destruct (plus_greedy cls (match_here re) s) as [[run caps']|] eqn:E;
      [|discriminate].
    intros [= <-]. destruct (plus_greedy_captured _ _ _ _ _ _ IH E) as [H1 H2].
    now constructor.
Qed.

Lemma String_match_captured re s caps :
  String_match re s = Some caps -> Forall2 captured (group_classes re) caps.
Proof.
  induction s as [|c s IH]; simpl.
  - destruct (match_here re EmptyString) as [caps'|] eqn:E; [|discriminate].
    intros [= <-]. now apply match_here_captured in E.
  - destruct (match_here re (String c s)) as [caps'|] eqn:E; [|exact IH].
    intros [= <-]. now apply match_here_captured in E.
Qed.

Lemma decimal_acc_nonneg s acc :
  all_chars is_digit s = true -> 0 <= acc -> 0 <= decimal_acc acc s.
Proof.
  revert acc. induction s as [|c s IH]; cbn [all_chars decimal_acc];
    intros acc H Hacc; [assumption|].
  apply andb_true_iff in H. destruct H as [Hc H]. apply IH; [assumption|].
  unfold is_digit in Hc. apply andb_true_iff in Hc. destruct Hc as [Hc _].
  apply Nat.leb_le in Hc. unfold digit_value. lia.
Qed.

(** X13. What the reading of the headers can give, for any header text: a
    file type, when present, is a non-empty string of word characters
    without lower-case letters, and a size, when present, is not negative. *)
Theorem headers_fileInfo_shape (resp : Response) :
  (forall t, fileType (headers_fileInfo resp) = Some t ->
             t <> EmptyString /\ all_chars is_word t = true /\ toUpperCase t = t) /\
  (forall n, size (headers_fileInfo resp) = Some n -> 0 <= n).
Proof.
  unfold headers_fileInfo. cbn [fileType size]. split.
  - intros t. destruct (String_match re_content_type (responseHeaders resp))
      as [caps|] eqn:E; [|discriminate].
    apply String_match_captured in E.
    change (group_classes re_content_type) with [is_word] in E.
    inversion E as [|cls g ? ? [Hall Hne] Hrest]; subst. cbn [group1 option_map].
    intros [= <-]. repeat split.
    + destruct g; [congruence | discriminate].
    + rewrite all_chars_upper; [assumption | apply is_word_upper].
    + apply toUpperCase_idem.
  - intros n. destruct (String_match re_content_length (responseHeaders resp))
      as [caps|] eqn:E; [|discriminate].
    apply String_match_captured in E.
    change (group_classes re_content_length) with [is_digit] in E.
    inversion E as [|cls g ? ? [Hall Hne] Hrest]; subst. cbn [group1].
    destruct g as [|c g]; [discriminate|]. intros [= <-].
    unfold parseInt. rewrite (leading_all _ _ Hall).
    apply decimal_acc_nonneg; [assumption | lia].
Qed.

Lemma headers_fileInfo_shape_witness :
  toUpperCase "SVG" = "SVG"%string /\ 0 <= 12345.
Proof.
  destruct (headers_fileInfo_shape
              (mkResponse ("Content-Length: 12345" ++ crlf
                           ++ "content-type: image/svg+xml" ++ crlf)%string))
    as [Ht Hn].
  split.
  - exact (proj2 (proj2 (Ht "SVG"%string eq_refl))).
  - exact (Hn 12345 eq_refl).
Defined.

Lemma plus_greedy_upper cls k s :
  (forall c, cls (to_upper c) = cls c) ->
  (forall s', k (toUpperCase s') = option_map (map toUpperCase) (k s')) ->
  plus_greedy cls k (toUpperCase s)
  = option_map (fun rc => (toUpperCase (fst rc), map toUpperCase (snd rc)))
      (plus_greedy cls k s).
Proof.
  intros Hcls Hk. induction s as [|c s IH]; simpl; [reflexivity|].
  rewrite Hcls. destruct (cls c); [|reflexivity]. rewrite IH.
  destruct (plus_greedy cls k s) as [[run caps]|]; simpl; [reflexivity|].
  rewrite Hk. now destruct (k s).
Qed.

Lemma match_here_upper re s :
  caseless re ->
  match_here re (toUpperCase s) = option_map (map toUpperCase) (match_here re s).
Proof.
  revert s. induction re as [|[p|cls|cls] re IH]; intros s H; simpl in *.
  - reflexivity.
  - destruct s as [|c s]; simpl; [reflexivity|]. rewrite to_upper_idem.
    destruct (Ascii.eqb (to_upper p) (to_upper c)); [now apply IH | reflexivity].
  - destruct H as [Hcls H].
    rewrite (plus_greedy_upper cls _ s Hcls (fun s' => IH s' H)).
    now destruct (plus_greedy cls (match_here re) s) as [[run caps]|].
  - destruct H as [Hcls H].
    rewrite (plus_greedy_upper cls _ s Hcls (fun s' => IH s' H)).
    now destruct (plus_greedy cls (match_here re) s) as [[run caps]|].
Qed.

Lemma String_match_upper re s :
  caseless re ->
  String_match re (toUpperCase s) = option_map (map toUpperCase) (String_match re s).
Proof.
  intros H. induction s as [|c s IH].
  - cbn [toUpperCase String_match].
    change EmptyString with (toUpperCase EmptyString) at 1.
    rewrite (match_here_upper re EmptyString H).
    now destruct (match_here re EmptyString).
  - cbn [toUpperCase String_match].
    change (String (to_upper c) (toUpperCase s)) with (toUpperCase (String c s)).
    rewrite (match_here_upper re (String c s) H).
    destruct (match_here re (String c s)); [reflexivity | exact IH].
Qed.

Lemma parseInt_upper s : parseInt (toUpperCase s) = parseInt s.
Proof.
  unfold parseInt. f_equal. induction s as [|c s IH]; simpl; [reflexivity|].
  rewrite is_digit_upper. destruct (is_digit c) eqn:D; [|reflexivity].
  now rewrite (to_upper_digit _ D), IH.
Qed.

(** X14. The letter case of the header text does not matter: two header
    texts that differ only in the case of their letters give the same file
    info. *)
Theorem headers_fileInfo_caseless (a b : string) :
  eq_ci a b = true ->
  headers_fileInfo (mkResponse a) = headers_fileInfo (mkResponse b).
Proof.
  assert (U : forall h, headers_fileInfo (mkResponse (toUpperCase h))
                        = headers_fileInfo (mkResponse h)).
  { intros h. unfold headers_fileInfo. cbn [responseHeaders].
    rewrite !String_match_upper.
    - destruct (String_match re_content_type h) as [[|t ?]|],
        (String_match re_content_length h) as [[|g ?]|]; simpl;
        rewrite ?toUpperCase_idem; try reflexivity;
        destruct g; simpl; try reflexivity;
        f_equal; f_equal; exact (parseInt_upper (String _ _)).
    - simpl. split; [exact is_digit_upper | exact I].
    - simpl. split; [exact is_word_upper|]. split; [exact is_word_upper | exact I]. }
  intros H. rewrite <- (U a), <- (U b). now rewrite (eq_ci_upper _ _ H).
Qed.

Lemma headers_fileInfo_caseless_witness :
  headers_fileInfo (mkResponse "CONTENT-LENGTH: 77")
  = headers_fileInfo (mkResponse "content-length: 77").
Proof.
  exact (headers_fileInfo_caseless "CONTENT-LENGTH: 77" "content-length: 77" eq_refl).
Defined.
